(** * Spotify music recommender: catalog loader and similarity engine

    A shallow embedding of [data/loader.py] and [recommendation_engine.py].

    Conventions of the embedding:
    - a pandas object column holds strings or the missing marker NaN; a cell
      of such a column is an [option string], [None] being NaN;
    - numbers are exact rationals ([Q]) in place of 64-bit floats; a float
      cell that may be NaN is an [option Q]; the square root is rounded
      down, with 52 fractional bits or more; a division of rationals never
      fails, so the computations of scikit-learn are given a second time with
      every division checked;
    - a data frame is the list of its rows, in index order;
    - [n_recommendations] is a count, hence a [nat];
    - [np.argsort] is an insertion sort; numpy's default sort promises no
      order among equal values, and nothing that is stated of the program
      below rests on that order;
    - [str.lower] is a parameter of the functions that search and filter by
      text; [lower], which acts on the ASCII letters, stands for it on ASCII
      text;
    - the sort behind [nlargest] when all rows are asked for, which promises
      no order among equal values, is a parameter;
    - the functions of pandas, numpy and scikit-learn the program calls are
      written out after their documented behaviour. *)

From Stdlib Require Import QArith Qround Qminmax Lqa Lia ZArith List Ascii String.
From stdpp Require Import base option list sorting gmap strings.

Local Open Scope Q_scope.

(** ** data/loader.py *)

Module Loader.

(** The nine audio feature columns, as a record over the cell type. *)
Record Features (A : Type) : Type := mkFeatures {
  danceability : A;
  energy : A;
  loudness : A;
  speechiness : A;
  acousticness : A;
  instrumentalness : A;
  liveness : A;
  valence : A;
  tempo : A
}.
Arguments mkFeatures {A}.
Arguments danceability {A}.
Arguments energy {A}.
Arguments loudness {A}.
Arguments speechiness {A}.
Arguments acousticness {A}.
Arguments instrumentalness {A}.
Arguments liveness {A}.
Arguments valence {A}.
Arguments tempo {A}.

(** [AUDIO_FEATURES]: the column names, in the fixed order. *)
Definition AUDIO_FEATURES : list string :=
  ["danceability"; "energy"; "loudness"; "speechiness";
   "acousticness"; "instrumentalness"; "liveness"; "valence"; "tempo"]%string.

(** [df[AUDIO_FEATURES].values] for one row: the cells in column order. *)
Definition to_list {A} (f : Features A) : list A :=
  [danceability f; energy f; loudness f; speechiness f;
   acousticness f; instrumentalness f; liveness f; valence f; tempo f].

Definition features_map {A B} (g : A -> B) (f : Features A) : Features B :=
  mkFeatures (g (danceability f)) (g (energy f)) (g (loudness f))
             (g (speechiness f)) (g (acousticness f)) (g (instrumentalness f))
             (g (liveness f)) (g (valence f)) (g (tempo f)).

(** A cell of a feature column as [read_csv] delivers it: a number, a text
    that does not read as a number, or an empty cell. *)
Inductive raw_cell : Type :=
  | Num (q : Q)
  | Unparseable (s : string)
  | Missing.

(** A row of the CSV file. *)
Record RawRow : Type := mkRawRow {
  r_track_id : option string;
  r_artists : option string;
  r_album_name : option string;
  r_track_name : option string;
  r_track_genre : option string;
  r_popularity : Z;
  r_audio : Features raw_cell
}.

(** A row of the data frame; [A] is the type of a feature cell. *)
Record Row (A : Type) : Type := mkRow {
  track_id : string;
  artists : option string;
  album_name : option string;
  track_name : option string;
  genre : option string;
  popularity : Z;
  audio : Features A
}.
Arguments mkRow {A}.
Arguments track_id {A}.
Arguments artists {A}.
Arguments album_name {A}.
Arguments track_name {A}.
Arguments genre {A}.
Arguments popularity {A}.
Arguments audio {A}.

(** A row of the loaded catalog: every feature is a number. *)
Definition Track : Type := Row Q.

(** [astype(str)]: NaN prints as ["nan"]. *)
Definition astype_str (o : option string) : string :=
  match o with Some s => s | None => "nan"%string end.

(** [Series.fillna(value)]. *)
Definition fillna {A} (value : A) (o : option A) : option A :=
  match o with Some x => Some x | None => Some value end.

(** [pd.to_numeric(..., errors='coerce')]: what is not a number becomes NaN. *)
Definition to_numeric_coerce (c : raw_cell) : option Q :=
  match c with
  | Num q => Some q
  | Unparseable _ => None
  | Missing => None
  end.

(** Lines 27-37 of [load_full_dataset], on one row. *)
Definition clean_row (r : RawRow) : Row (option Q) :=
  mkRow (astype_str (r_track_id r))
        (fillna "Unknown Artist"%string (r_artists r))
        (fillna "Unknown Album"%string (r_album_name r))
        (fillna "Unknown Track"%string (r_track_name r))
        (fillna "unknown"%string (r_track_genre r))
        (r_popularity r)
        (features_map (fun c => fillna 0 (to_numeric_coerce c)) (r_audio r)).

(** [drop_duplicates(subset=['track_id'], keep='first')]. *)
Fixpoint drop_duplicates_from {A} (seen : list string) (df : list (Row A))
  : list (Row A) :=
  match df with
  | [] => []
  | r :: rest =>
      if bool_decide (track_id r ∈ seen)
      then drop_duplicates_from seen rest
      else r :: drop_duplicates_from (track_id r :: seen) rest
  end.

Definition drop_duplicates {A} (df : list (Row A)) : list (Row A) :=
  drop_duplicates_from [] df.

(** The features of a row when none is NaN. *)
Definition all_present (f : Features (option Q)) : option (Features Q) :=
  match danceability f, energy f, loudness f, speechiness f, acousticness f,
        instrumentalness f, liveness f, valence f, tempo f with
  | Some a, Some b, Some c, Some d, Some e, Some g, Some h, Some i, Some j =>
      Some (mkFeatures a b c d e g h i j)
  | _, _, _, _, _, _, _, _, _ => None
  end.

(** [dropna(subset=AUDIO_FEATURES)]: a row with a NaN feature is dropped. *)
Fixpoint dropna (df : list (Row (option Q))) : list Track :=
  match df with
  | [] => []
  | r :: rest =>
      match all_present (audio r) with
      | Some f =>
          mkRow (track_id r) (artists r) (album_name r) (track_name r)
                (genre r) (popularity r) f :: dropna rest
      | None => dropna rest
      end
  end.

(** [load_full_dataset] at its first call ([_cached_df] is [None]), from the
    rows of a file that has all the columns; [reset_index] is the position in
    the list. *)
Definition load_full_dataset (csv : list RawRow) : list Track :=
  dropna (drop_duplicates (map clean_row csv)).

(** ** The rest of data/loader.py *)

(** The module variable [_cached_df]: [None] until the first load. *)
Definition cache : Type := option (list Track).

(** [load_full_dataset] with [_cached_df] threaded through: the frame it
    returns and the new value of the variable; [csv] is what the file holds
    at the call. *)
Definition load_full_dataset_cached (cached : cache) (csv : list RawRow)
  : list Track * cache :=
  match cached with
  | Some df => (df, Some df)
  | None => let df := load_full_dataset csv in (df, Some df)
  end.

Definition get_audio_features_columns : list string := AUDIO_FEATURES.

(** [Series.unique()]: the values in the order they first appear. *)
Fixpoint unique_from {A} `{EqDecision A} (seen : list A) (l : list A) : list A :=
  match l with
  | [] => []
  | x :: rest =>
      if bool_decide (x ∈ seen)
      then unique_from seen rest
      else x :: unique_from (x :: seen) rest
  end.

Definition unique {A} `{EqDecision A} (l : list A) : list A := unique_from [] l.

(** [Series.dropna()] on an object column. *)
Definition dropna_cells (col : list (option string)) : list string :=
  omap id col.

(** [Series.nunique()]: the number of distinct values, NaN left out. *)
Definition nunique (col : list (option string)) : nat :=
  length (unique (dropna_cells col)).

Record DatasetStats : Type := mkDatasetStats {
  total_tracks : nat;
  total_genres : nat;
  total_artists : nat;
  audio_features : nat
}.

(** [get_dataset_stats], the cache threaded through. *)
Definition get_dataset_stats (cached : cache) (csv : list RawRow)
  : DatasetStats * cache :=
  let '(df, cached) := load_full_dataset_cached cached csv in
  (mkDatasetStats (length df) (nunique (map genre df))
                  (nunique (map artists df)) (length AUDIO_FEATURES),
   cached).

End Loader.

(** ** Numbers: the operations of numpy and of Python the engine uses *)

Module Numpy.

Definition Qlt_bool (x y : Q) : bool := negb (Qle_bool y x).

(** Square root, rounded down: for the fraction [n / d] in lowest terms, the
    largest multiple of [1 / (d * 2 ^ 52)] that is at most the root. *)
Definition sqrt (x : Q) : Q :=
  let r := Qred x in
  Z.sqrt (Qnum r * Zpos (Qden r) * 4 ^ 52) # (Qden r * 2 ^ 52).

(** [x / y] with the divisor checked: [None] for a division by zero, which
    numpy answers with inf or NaN. *)
Definition divide (x y : Q) : option Q :=
  if Qeq_bool y 0 then None else Some (x / y).

(** [np.rint]: the nearest integer, halves to the even one. *)
Definition rint (x : Q) : Z :=
  let f := Qfloor x in
  let d := x - inject_Z f in
  if Qlt_bool d (1 # 2) then f
  else if Qlt_bool (1 # 2) d then (f + 1)%Z
  else if Z.even f then f else (f + 1)%Z.

(** [round(x, 1)] on a numpy float: one decimal. *)
Definition round1 (x : Q) : Q := inject_Z (rint (x * 10)) / 10.

(** [a[i]] with [i] in range. *)
Definition at_ {A} (dflt : A) (a : list A) (i : nat) : A := nth i a dflt.

(** One step of the insertion sort behind [np.argsort] on a short array:
    index [i] goes before the first index whose value is strictly larger. *)
Fixpoint insert_index (a : list Q) (i : nat) (sorted : list nat) : list nat :=
  match sorted with
  | [] => [i]
  | j :: rest =>
      if Qlt_bool (at_ 0 a i) (at_ 0 a j)
      then i :: j :: rest
      else j :: insert_index a i rest
  end.

(** [np.argsort(a)]: the indices of [a] by ascending value. The indices are
    inserted one by one, in index order, into the sorted prefix; an index
    moves past strictly larger values only, so equal values keep their
    index order. *)
Definition argsort (a : list Q) : list nat :=
  fold_left (fun sorted i => insert_index a i sorted) (seq 0 (length a)) [].

(** [np.where(mask)[0]]: the positions that hold [True]. *)
Fixpoint where_from (start : nat) (mask : list bool) : list nat :=
  match mask with
  | [] => []
  | b :: rest =>
      if b then start :: where_from (S start) rest
      else where_from (S start) rest
  end.

Definition where_ (mask : list bool) : list nat := where_from 0 mask.

(** [a[indices]]: fancy indexing. *)
Definition take_at (a : list Q) (indices : list nat) : list Q :=
  map (at_ 0 a) indices.

Definition take_idx (a : list nat) (indices : list nat) : list nat :=
  map (at_ 0%nat a) indices.

(** [a[i] = x] on an array; the index is in range at every use. *)
Definition set_at {A} (a : list A) (i : nat) (x : A) : list A := <[i := x]> a.

End Numpy.

(** ** scikit-learn: [MinMaxScaler] and [cosine_similarity] *)

Module Sklearn.
Import Numpy.

(** Machine epsilon of a 64-bit float. *)
Definition eps : Q := 1 # (2 ^ 52).

(** [_handle_zeros_in_scale]: a scale below [10 * eps] is taken as 1. *)
Definition handle_zeros_in_scale (scale : Q) : Q :=
  if Qlt_bool scale (10 * eps) then 1 else scale.

Record MinMaxScaler : Type := mkScaler {
  data_min_ : list Q;
  data_max_ : list Q;
  data_range_ : list Q;
  scale_ : list Q;
  min_ : list Q
}.

(** [MinMaxScaler().fit(X)] with the default [feature_range=(0, 1)]; an array
    with no row raises [ValueError], here [None]. *)
Definition fit (X : list (list Q)) : option MinMaxScaler :=
  match X with
  | [] => None
  | row :: rest =>
      let data_min := fold_left (zip_with Qmin) rest row in
      let data_max := fold_left (zip_with Qmax) rest row in
      let data_range := zip_with Qminus data_max data_min in
      let scale := map (fun r => (1 - 0) / handle_zeros_in_scale r) data_range in
      let min := zip_with (fun m s => 0 - m * s) data_min scale in
      Some (mkScaler data_min data_max data_range scale min)
  end.

(** [scaler.transform(X)]: [X * scale_ + min_], row by row, not clipped. *)
Definition transform_row (sc : MinMaxScaler) (row : list Q) : list Q :=
  zip_with Qplus (zip_with Qmult row (scale_ sc)) (min_ sc).

Definition transform (sc : MinMaxScaler) (X : list (list Q)) : list (list Q) :=
  map (transform_row sc) X.

Definition dot (x y : list Q) : Q :=
  fold_right Qplus 0 (zip_with Qmult x y).

(** [row_norms]: the Euclidean norm of a row. *)
Definition row_norm (x : list Q) : Q := sqrt (dot x x).

(** [normalize(X)], one row: a norm taken as zero divides by 1. *)
Definition normalize_row (x : list Q) : list Q :=
  let norm := handle_zeros_in_scale (row_norm x) in
  map (fun c => c / norm) x.

(** [cosine_similarity(X, Y)]: the products of the normalized rows. *)
Definition cosine_similarity (X Y : list (list Q)) : list (list Q) :=
  map (fun x => map (fun y => dot (normalize_row x) (normalize_row y)) Y) X.

(** *** The same computations, every division checked *)

(** What a checked computation gives: a result made of numbers, a result
    that would hold inf or NaN, or an exception. *)
Inductive checked (A : Type) : Type :=
  | Finite (a : A)
  | NotFinite
  | Raised.
Arguments Finite {A}.
Arguments NotFinite {A}.
Arguments Raised {A}.

(** [fit], the division that gives [scale_] checked. *)
Definition fit_checked (X : list (list Q)) : checked MinMaxScaler :=
  match X with
  | [] => Raised
  | row :: rest =>
      let data_min := fold_left (zip_with Qmin) rest row in
      let data_max := fold_left (zip_with Qmax) rest row in
      let data_range := zip_with Qminus data_max data_min in
      match mapM (fun r => divide (1 - 0) (handle_zeros_in_scale r)) data_range with
      | Some scale =>
          let min := zip_with (fun m s => 0 - m * s) data_min scale in
          Finite (mkScaler data_min data_max data_range scale min)
      | None => NotFinite
      end
  end.

(** [normalize], one row, the division by the norm checked. *)
Definition normalize_row_checked (x : list Q) : option (list Q) :=
  let norm := handle_zeros_in_scale (row_norm x) in
  mapM (fun c => divide c norm) x.

(** [cosine_similarity]: both arrays normalized, the divisions checked, then
    the products of the rows. *)
Definition cosine_similarity_checked (X Y : list (list Q))
  : option (list (list Q)) :=
  match mapM normalize_row_checked X, mapM normalize_row_checked Y with
  | Some X_normalized, Some Y_normalized =>
      Some (map (fun x => map (fun y => dot x y) Y_normalized) X_normalized)
  | _, _ => None
  end.

End Sklearn.

(** ** Strings: [str.lower] and [Series.str.contains] *)

Module Pandas.

(** [str.lower], on the ASCII letters. *)
Definition lower_ascii (c : ascii) : ascii :=
  let n := nat_of_ascii c in
  if ((65 <=? n)%nat && (n <=? 90)%nat)%bool then ascii_of_nat (n + 32) else c.

Fixpoint lower (s : string) : string :=
  match s with
  | EmptyString => EmptyString
  | String c rest => String (lower_ascii c) (lower rest)
  end.

(** [Series.str.lower()] on one cell, [str_lower] standing for [str.lower]:
    NaN stays NaN. *)
Definition str_lower_with (str_lower : string -> string) (o : option string)
  : option string :=
  match o with Some s => Some (str_lower s) | None => None end.

(** The same on ASCII text. *)
Definition str_lower (o : option string) : option string :=
  str_lower_with lower o.

(** [str.contains(pat, na=False)] reads [pat] as a regular expression
    ([regex=True] is the default). The fragment modelled: literal
    characters, [.] (any character but a newline) and [|] between
    alternatives. *)
Inductive atom : Type :=
  | Lit (c : ascii)
  | AnyChar.

(** The characters with a meaning of their own wherever they stand in a
    pattern; a closing bracket or brace has none, and an opening brace only
    before a closing one. *)
Definition special_chars : list ascii :=
  list_ascii_of_string ".^$*+?[\|()".

Definition is_special (c : ascii) : bool :=
  existsb (Ascii.eqb c) special_chars.

Fixpoint has_closing_brace (s : string) : bool :=
  match s with
  | EmptyString => false
  | String c rest => Ascii.eqb c "}" || has_closing_brace rest
  end.

(** An opening brace that may start a repetition count. *)
Definition opens_count (c : ascii) (rest : string) : bool :=
  Ascii.eqb c "{" && has_closing_brace rest.

(** A pattern is read into its alternatives, each a sequence of atoms;
    [None] when it uses a construct outside the fragment. *)
Fixpoint compile (pat : string) : option (list (list atom)) :=
  match pat with
  | EmptyString => Some [[]]
  | String c rest =>
      match compile rest with
      | None => None
      | Some alts =>
          if Ascii.eqb c "|" then Some ([] :: alts)
          else if Ascii.eqb c "." then
            match alts with
            | a :: more => Some ((AnyChar :: a) :: more)
            | [] => None
            end
          else if is_special c then None
          else if opens_count c rest then None
          else
            match alts with
            | a :: more => Some ((Lit c :: a) :: more)
            | [] => None
            end
      end
  end.

Definition atom_matches (a : atom) (c : ascii) : bool :=
  match a with
  | Lit x => Ascii.eqb x c
  | AnyChar => negb (Ascii.eqb c "010")
  end.

(** The atoms match a prefix of [s]. *)
Fixpoint match_here (atoms : list atom) (s : string) : bool :=
  match atoms with
  | [] => true
  | a :: more =>
      match s with
      | EmptyString => false
      | String c rest => atom_matches a c && match_here more rest
      end
  end.

(** [re.search]: the atoms match at some position of [s]. *)
Fixpoint search_at_any (atoms : list atom) (s : string) : bool :=
  match_here atoms s ||
  match s with
  | EmptyString => false
  | String _ rest => search_at_any atoms rest
  end.

Definition re_search (alts : list (list atom)) (s : string) : bool :=
  existsb (fun atoms => search_at_any atoms s) alts.

(** [str.contains(pat, na=False)] on one cell, the pattern compiled. *)
Definition str_contains (alts : list (list atom)) (cell : option string) : bool :=
  match cell with
  | Some s => re_search alts s
  | None => false
  end.

End Pandas.

(** ** recommendation_engine.py *)

Module Engine.
Import Loader Numpy Sklearn Pandas.

Record MusicRecommender : Type := mkRecommender {
  df : list Track;
  feature_columns : list string;
  scaler : MinMaxScaler;
  scaled_features : list (list Q)
}.

(** [__init__] and [_prepare_features], from the rows of the file;
    [fit_transform] raises on a catalog with no row, here [None]. *)
Definition init (csv : list RawRow) : option MusicRecommender :=
  let df := load_full_dataset csv in
  let features := map (fun t => to_list (audio t)) df in
  match fit features with
  | Some sc => Some (mkRecommender df AUDIO_FEATURES sc (transform sc features))
  | None => None
  end.

(** A recommended track: the row and its [similarity_score]. *)
Record Recommendation : Type := mkRecommendation {
  track : Track;
  similarity_score : Q
}.

(** [df.iloc[i]]; [i] is in range at every use, [no_track] stands for the
    row an index out of range would not find. *)
Definition no_track : Track :=
  mkRow EmptyString None None None None 0%Z (mkFeatures 0 0 0 0 0 0 0 0 0).

Definition iloc (df : list Track) (i : nat) : Track := at_ no_track df i.

(** [df[df['track_id'] == id].index[0]]; [None] is the [IndexError]. *)
Fixpoint first_index_from (start : nat) (df : list Track) (id : string)
  : option nat :=
  match df with
  | [] => None
  | t :: rest =>
      if String.eqb (track_id t) id then Some start
      else first_index_from (S start) rest id
  end.

Definition first_index (df : list Track) (id : string) : option nat :=
  first_index_from 0 df id.

(** [!=] on two cells of an object column: NaN differs from everything. *)
Definition cell_ne (a b : option string) : bool :=
  match a, b with
  | Some x, Some y => negb (String.eqb x y)
  | _, _ => true
  end.

(** Lines 89-90 of [get_recommendations]: the similarities of the seed row
    against the catalog. *)
Definition seed_similarities (self : MusicRecommender) (idx : nat) : list Q :=
  let seed_features := [at_ [] (scaled_features self) idx] in
  at_ [] (cosine_similarity seed_features (scaled_features self)) 0.

(** Lines 92-104: [top_indices] and [top_scores]. *)
Definition seed_ranking (self : MusicRecommender) (idx : nat)
    (n_recommendations : nat) (exclude_same_artist : bool)
  : list nat * list Q :=
  let similarities := seed_similarities self idx in
  if exclude_same_artist then
    let seed_artist := artists (iloc (df self) idx) in
    let mask := map (fun t => cell_ne (artists t) seed_artist) (df self) in
    let mask := set_at mask idx false in
    let valid_indices := where_ mask in
    let valid_similarities := take_at similarities valid_indices in
    let top_indices_local :=
      firstn n_recommendations (rev (argsort valid_similarities)) in
    let top_indices := take_idx valid_indices top_indices_local in
    let top_scores := take_at valid_similarities top_indices_local in
    (top_indices, top_scores)
  else
    let similarities := set_at similarities idx (-1) in
    let top_indices :=
      firstn n_recommendations (rev (argsort similarities)) in
    let top_scores := take_at similarities top_indices in
    (top_indices, top_scores).

(** Lines 106-110: the loop that builds the result. *)
Fixpoint build (df : list Track) (top_indices : list nat) (top_scores : list Q)
  : list Recommendation :=
  match top_indices, top_scores with
  | track_idx :: more, s :: scores =>
      mkRecommendation (iloc df track_idx) (round1 (s * 100))
        :: build df more scores
  | _, _ => []
  end.

Definition get_recommendations (self : MusicRecommender) (id : string)
    (n_recommendations : nat) (exclude_same_artist : bool)
  : list Recommendation :=
  match first_index (df self) id with
  | None => []
  | Some idx =>
      let '(top_indices, top_scores) :=
        seed_ranking self idx n_recommendations exclude_same_artist in
      build (df self) top_indices top_scores
  end.

(** [features_dict.get(key, default)]. *)
Definition get (features_dict : gmap string Q) (key : string) (dflt : Q) : Q :=
  match features_dict !! key with Some v => v | None => dflt end.

(** Lines 125-135: the query vector. *)
Definition feature_vector (features_dict : gmap string Q) : list Q :=
  [get features_dict "danceability" (5 # 10);
   get features_dict "energy" (5 # 10);
   get features_dict "loudness" (-10);
   get features_dict "speechiness" (1 # 10);
   get features_dict "acousticness" (5 # 10);
   get features_dict "instrumentalness" 0;
   get features_dict "liveness" (2 # 10);
   get features_dict "valence" (5 # 10);
   get features_dict "tempo" 120].

(** Lines 137-140: the similarities and [top_indices]. *)
Definition vector_similarities (self : MusicRecommender)
    (features_dict : gmap string Q) : list Q :=
  let scaled_vector := transform (scaler self) [feature_vector features_dict] in
  at_ [] (cosine_similarity scaled_vector (scaled_features self)) 0.

Definition vector_ranking (self : MusicRecommender)
    (features_dict : gmap string Q) (n_recommendations : nat) : list nat :=
  firstn n_recommendations (rev (argsort (vector_similarities self features_dict))).

Definition get_recommendations_by_features (self : MusicRecommender)
    (features_dict : gmap string Q) (n_recommendations : nat)
  : list Recommendation :=
  let similarities := vector_similarities self features_dict in
  map (fun idx =>
         mkRecommendation (iloc (df self) idx)
                          (round1 (at_ 0 similarities idx * 100)))
      (vector_ranking self features_dict n_recommendations).

(** [search_tracks], [str_lower] standing for [str.lower]; [None] when the
    query, read as a pattern, is outside the modelled fragment. *)
Definition search_tracks_with (str_lower : string -> string)
    (self : MusicRecommender) (query : string) : option (list Track) :=
  let query := str_lower query in
  match compile query with
  | None => None
  | Some pat =>
      Some (List.filter
              (fun t => str_contains pat (str_lower_with str_lower (track_name t))
                        || str_contains pat (str_lower_with str_lower (artists t)))
              (df self))
  end.

(** [search_tracks] on ASCII text. *)
Definition search_tracks (self : MusicRecommender) (query : string)
  : option (list Track) :=
  search_tracks_with lower self query.

Definition mood_presets : gmap string (gmap string Q) :=
  list_to_map
    [("happy"%string,
      list_to_map [("valence"%string, 8 # 10); ("energy"%string, 7 # 10);
                   ("danceability"%string, 7 # 10)]);
     ("sad"%string,
      list_to_map [("valence"%string, 2 # 10); ("energy"%string, 3 # 10);
                   ("acousticness"%string, 6 # 10)]);
     ("energetic"%string,
      list_to_map [("energy"%string, 9 # 10); ("tempo"%string, 140);
                   ("danceability"%string, 7 # 10)]);
     ("chill"%string,
      list_to_map [("energy"%string, 3 # 10); ("acousticness"%string, 7 # 10);
                   ("valence"%string, 5 # 10)]);
     ("party"%string,
      list_to_map [("danceability"%string, 9 # 10); ("energy"%string, 8 # 10);
                   ("valence"%string, 7 # 10)]);
     ("focus"%string,
      list_to_map [("instrumentalness"%string, 7 # 10);
                   ("speechiness"%string, 5 # 100); ("energy"%string, 4 # 10)])].

Definition get_mood_based_recommendations (self : MusicRecommender)
    (mood : string) (n_recommendations : nat) : list Recommendation :=
  match mood_presets !! lower mood with
  | None => []
  | Some preset => get_recommendations_by_features self preset n_recommendations
  end.

(** ** The other methods of [MusicRecommender] *)

(** The six columns [get_all_tracks] and [get_popular_tracks] keep. *)
Record TrackInfo : Type := mkTrackInfo {
  info_track_id : string;
  info_track_name : option string;
  info_artists : option string;
  info_album_name : option string;
  info_popularity : Z;
  info_genre : option string
}.

(** [df[['track_id', 'track_name', 'artists', 'album_name', 'popularity',
    'genre']]], one row. *)
Definition to_info (t : Track) : TrackInfo :=
  mkTrackInfo (track_id t) (track_name t) (artists t) (album_name t)
              (popularity t) (genre t).

Definition get_all_tracks (self : MusicRecommender) : list TrackInfo :=
  map to_info (df self).

(** One step of a stable sort by descending key: [x] goes before the first
    element whose key is strictly smaller. *)
Fixpoint insert_desc {A} (key : A -> Z) (x : A) (sorted : list A) : list A :=
  match sorted with
  | [] => [x]
  | y :: rest =>
      if (key y <? key x)%Z then x :: y :: rest
      else y :: insert_desc key x rest
  end.

(** [DataFrame.nlargest(n, column)] with the default [keep='first']. When
    all the rows are asked for, pandas returns
    [sort_values(ascending=False).head(n)], whose sort, here [sort_values],
    promises no order among rows of equal value; otherwise the first [n] rows
    by descending value, rows of equal value in frame order. *)
Definition nlargest {A} (sort_values : list A -> list A) (key : A -> Z)
    (n : nat) (frame : list A) : list A :=
  if (length frame <=? n)%nat
  then firstn n (sort_values frame)
  else firstn n (fold_left (fun sorted x => insert_desc key x sorted) frame []).

Definition get_popular_tracks (sort_values : list Track -> list Track)
    (self : MusicRecommender) (n_tracks : nat) : list TrackInfo :=
  let popular := nlargest sort_values popularity n_tracks (df self) in
  map to_info popular.

(** [df[df['track_id'] == str(track_id)]]. *)
Definition rows_with_id (df : list Track) (id : string) : list Track :=
  List.filter (fun t => String.eqb (track_id t) id) df.

Definition get_track_by_id (self : MusicRecommender) (id : string)
  : option Track :=
  match rows_with_id (df self) id with
  | t :: _ => Some t
  | [] => None
  end.

(** The column of the audio features that has the given name. *)
Definition feature_of (name : string) (f : Features Q) : option Q :=
  if String.eqb name "danceability" then Some (danceability f)
  else if String.eqb name "energy" then Some (energy f)
  else if String.eqb name "loudness" then Some (loudness f)
  else if String.eqb name "speechiness" then Some (speechiness f)
  else if String.eqb name "acousticness" then Some (acousticness f)
  else if String.eqb name "instrumentalness" then Some (instrumentalness f)
  else if String.eqb name "liveness" then Some (liveness f)
  else if String.eqb name "valence" then Some (valence f)
  else if String.eqb name "tempo" then Some (tempo f)
  else None.

(** [track[columns].iloc[0].to_dict()]; every name of [columns] is a column
    of the frame. *)
Definition features_to_dict (columns : list string) (f : Features Q)
  : gmap string Q :=
  list_to_map
    (omap (fun name => match feature_of name f with
                       | Some v => Some (name, v)
                       | None => None
                       end) columns).

Definition get_track_features (self : MusicRecommender) (id : string)
  : option (gmap string Q) :=
  match rows_with_id (df self) id with
  | t :: _ => Some (features_to_dict (feature_columns self) (audio t))
  | [] => None
  end.

(** [==] between a cell of an object column and a string: NaN equals
    nothing. *)
Definition cell_eq (cell : option string) (s : string) : bool :=
  match cell with
  | Some x => String.eqb x s
  | None => false
  end.

(** [get_tracks_by_genre], [str_lower] standing for [str.lower]. *)
Definition get_tracks_by_genre_with (str_lower : string -> string)
    (self : MusicRecommender) (genre_name : string) (n_tracks : nat)
  : list Track :=
  let genre_tracks :=
    List.filter (fun t => cell_eq (genre t) (str_lower genre_name)) (df self) in
  firstn n_tracks genre_tracks.

(** [get_tracks_by_genre] on ASCII text. *)
Definition get_tracks_by_genre (self : MusicRecommender) (genre_name : string)
    (n_tracks : nat) : list Track :=
  get_tracks_by_genre_with lower self genre_name n_tracks.



(** One step of [sorted] on strings: [s] goes before the first string that
    is strictly larger. *)
Fixpoint insert_string (s : string) (sorted : list string) : list string :=
  match sorted with
  | [] => [s]
  | x :: rest =>
      if String.ltb s x then s :: x :: rest
      else x :: insert_string s rest
  end.

(** [sorted(l)] on strings, by code points. *)
Definition sorted_strings (l : list string) : list string :=
  fold_left (fun sorted s => insert_string s sorted) l [].

(** The strings of a list of cells when none is NaN. *)
Fixpoint all_strings (cells : list (option string)) : option (list string) :=
  match cells with
  | [] => Some []
  | Some s :: rest =>
      match all_strings rest with
      | Some l => Some (s :: l)
      | None => None
      end
  | None :: _ => None
  end.

(** [sorted(df['genre'].unique().tolist())]: comparing NaN with a string
    raises [TypeError], here [None]; a lone NaN is compared with nothing. *)
Definition get_all_genres (self : MusicRecommender)
  : option (list (option string)) :=
  let values := unique (map genre (df self)) in
  match all_strings values with
  | Some strings => Some (map Some (sorted_strings strings))
  | None =>
      match values with
      | [None] => Some [None]
      | _ => None
      end
  end.

(** [create_recommender]. *)
Definition create_recommender (csv : list RawRow) : option MusicRecommender :=
  init csv.

End Engine.

(** ** app.py: what [main] builds for the engine *)

Module App.
Import Loader Numpy Sklearn Pandas Engine.

(** The [features_dict] of the mode "By Features", from the eight sliders. *)
Definition slider_features_dict
    (danceability energy valence tempo acousticness instrumentalness
     speechiness liveness : Q) : gmap string Q :=
  list_to_map
    [("danceability"%string, danceability);
     ("energy"%string, energy);
     ("valence"%string, valence);
     ("tempo"%string, tempo);
     ("acousticness"%string, acousticness);
     ("instrumentalness"%string, instrumentalness);
     ("speechiness"%string, speechiness);
     ("liveness"%string, liveness)].

(** A cell inside an f-string: NaN prints as [nan]. *)
Definition format_cell (cell : option string) : string :=
  match cell with Some s => s | None => "nan"%string end.

(** The label of a track in the seed selection box. *)
Definition option_label (t : TrackInfo) : string :=
  (format_cell (info_track_name t) ++ " - " ++ format_cell (info_artists t))%string.

(** The dict comprehension [track_options]: the tracks are entered one
    after the other, a label entered again takes the new identifier. *)
Definition track_options (tracks : list TrackInfo) : gmap string string :=
  fold_left (fun options t => <[option_label t := info_track_id t]> options)
            tracks ∅.

End App.

(** ** Notions the properties are stated with *)

Module Spec.
Import Loader Numpy Sklearn Pandas Engine App.

(** The number a feature cell stands for once loaded: its value, or 0 when
    the cell is empty or is not a number. *)
Definition coerce0 (c : raw_cell) : Q :=
  match c with
  | Num q => q
  | Unparseable _ => 0
  | Missing => 0
  end.

(** A cell that is missing, or is not a number once coerced. *)
Definition not_numeric (c : raw_cell) : bool :=
  match c with
  | Num _ => false
  | Unparseable _ => true
  | Missing => true
  end.

(** A row of the file, as a row of the catalog. *)
Definition load_row (r : RawRow) : Track :=
  mkRow (astype_str (r_track_id r))
        (fillna "Unknown Artist"%string (r_artists r))
        (fillna "Unknown Album"%string (r_album_name r))
        (fillna "Unknown Track"%string (r_track_name r))
        (fillna "unknown"%string (r_track_genre r))
        (r_popularity r)
        (features_map coerce0 (r_audio r)).

(** Index [i] comes before index [j] when [a] is sorted by ascending value:
    its value is smaller, or equal with [i] the earlier index. *)
Definition asc_before (a : list Q) (i j : nat) : Prop :=
  at_ 0 a i < at_ 0 a j ∨ (at_ 0 a i == at_ 0 a j ∧ (i < j)%nat).




(** The defaults of the vector query, as documented, by field name. *)
Definition documented_defaults : list (string * Q) :=
  [("danceability"%string, 5 # 10); ("energy"%string, 5 # 10);
   ("loudness"%string, -10); ("speechiness"%string, 1 # 10);
   ("acousticness"%string, 5 # 10); ("instrumentalness"%string, 0);
   ("liveness"%string, 2 # 10); ("valence"%string, 5 # 10);
   ("tempo"%string, 120)].

Fixpoint assoc (table : list (string * Q)) (name : string) : option Q :=
  match table with
  | [] => None
  | (key, v) :: rest => if String.eqb key name then Some v else assoc rest name
  end.

Definition documented_default (name : string) : Q :=
  match assoc documented_defaults name with Some v => v | None => 0 end.

(** The value of a field of the query vector: the mapping's when the field
    is present, the documented default otherwise. *)
Definition query_value (features_dict : gmap string Q) (name : string) : Q :=
  match features_dict !! name with
  | Some v => v
  | None => documented_default name
  end.

(** The number of rows of the catalog, other than [i], with the artist of
    [i]. *)
Definition same_attribution_count (df : list Track) (i : Track) : nat :=
  (length (List.filter (fun t => bool_decide (artists t = artists i)) df) - 1)%nat.

(** [q] occurs in [s] as a run of consecutive characters. *)
Definition is_substring (q s : string) : Prop :=
  ∃ pre post, s = (pre ++ q ++ post)%string.

(** The cell is a string whose lowercase form has [q] as a substring,
    [str_lower] standing for [str.lower]. *)
Definition cell_has_substring_with (str_lower : string -> string)
    (q : string) (cell : option string) : Prop :=
  ∃ s, cell = Some s ∧ is_substring q (str_lower s).


(** The text [q] occurs in the lowercased name of the track or in its
    lowercased artist. *)
Definition matches_text_with (str_lower : string -> string)
    (q : string) (t : Track) : Prop :=
  cell_has_substring_with str_lower q (track_name t)
  ∨ cell_has_substring_with str_lower q (artists t).

(** The same on ASCII text. *)
Definition cell_has_substring (q : string) (cell : option string) : Prop :=
  cell_has_substring_with lower q cell.


(** A text none of whose characters has a meaning in a pattern. *)
Fixpoint plain_text (q : string) : bool :=
  match q with
  | EmptyString => true
  | String c rest =>
      negb (is_special c) && negb (opens_count c rest) && plain_text rest
  end.

(** The pattern that stands for the text [q] itself. *)
Fixpoint literal (q : string) : list atom :=
  match q with
  | EmptyString => []
  | String c rest => Lit c :: literal rest
  end.

(** The identifier a row of the file gets. *)
Definition row_id (r : RawRow) : string := astype_str (r_track_id r).

(** A run of calls of [load_full_dataset], one per state of the file: the
    frames returned and the cache left. *)
Fixpoint load_sequence (cached : cache) (files : list (list RawRow))
  : list (list Track) * cache :=
  match files with
  | [] => ([], cached)
  | csv :: rest =>
      let '(df, cached) := load_full_dataset_cached cached csv in
      let '(frames, cached) := load_sequence cached rest in
      (df :: frames, cached)
  end.

(** What the sort of [sort_values(ascending=False)] promises: the same
    rows, by descending key. *)
Definition sorts_descending {A} (key : A -> Z) (sort_values : list A -> list A)
  : Prop :=
  ∀ frame,
    Permutation (sort_values frame) frame
    ∧ StronglySorted (fun a b => (key b <= key a)%Z) (sort_values frame).

(** The stable sort by descending key behind [nlargest], from the rows
    already placed. *)
Definition sort_desc {A} (key : A -> Z) (frame acc : list A) : list A :=
  fold_left (fun sorted x => insert_desc key x sorted) frame acc.

(** The row has the key [v]. *)
Definition has_key {A} (key : A -> Z) (v : Z) (x : A) : bool := (key x =? v)%Z.

(** One step of the comprehension [track_options]. *)
Definition enter (options : gmap string string) (t : TrackInfo)
  : gmap string string :=
  <[option_label t := info_track_id t]> options.


(** The names of the mood presets. *)
Definition mood_names : list string :=
  ["happy"; "sad"; "energetic"; "chill"; "party"; "focus"]%string.

End Spec.

(** ** Small catalogs the properties are tried on *)

Module Examples.
Import Loader Numpy Sklearn Pandas Engine.

(** A file of one row whose [danceability] cell is empty. *)
Definition csv_missing_feature : list RawRow :=
  [mkRawRow (Some "t1"%string) (Some "artist"%string) (Some "album"%string)
            (Some "name"%string) (Some "pop"%string) 50%Z
            (mkFeatures Missing (Num (1 # 2)) (Num (-5)) (Num (1 # 10))
                        (Num (1 # 4)) (Num 0) (Num (1 # 5)) (Num (3 # 4))
                        (Num 120))].

(** A row with [danceability] and [energy] at [d] and the seven other
    features at [o]. *)
Definition row (id artist name : string) (d o : Q) : RawRow :=
  mkRawRow (Some id) (Some artist) (Some "album"%string) (Some name)
           (Some "pop"%string) 50%Z
           (mkFeatures (Num d) (Num d) (Num o) (Num o) (Num o) (Num o)
                       (Num o) (Num o) (Num o)).

(** A row with [danceability] at [d], [energy] at [e] and the seven other
    features at 0. *)
Definition row_two (id artist name : string) (d e : Q) : RawRow :=
  mkRawRow (Some id) (Some artist) (Some "album"%string) (Some name)
           (Some "pop"%string) 50%Z
           (mkFeatures (Num d) (Num e) (Num 0) (Num 0) (Num 0) (Num 0)
                       (Num 0) (Num 0) (Num 0)).

(** Four tracks: seen from S, the similarity of P is smaller than that of
    Q, and both round to the same score; Z gives both columns the range from
    0 to 1. *)
Definition csv_close : list RawRow :=
  [row_two "S" "s" "Seed" 1 0; row_two "P" "p" "Near" 1 (40 # 1000);
   row_two "Q" "q" "Nearer" 1 (35 # 1000); row_two "Z" "z" "Far" 0 1].

(** Three tracks: A, B, and C with the features of A; A and C by the same
    artist. *)
Definition csv3 : list RawRow :=
  [row "A" "x" "Alpha" 1 0; row "B" "y" "Beta" 0 1; row "C" "x" "Gamma" 1 0].

Definition no_scaler : MinMaxScaler := mkScaler [] [] [] [] [].

Definition engine3 : MusicRecommender :=
  Eval vm_compute in
    match init csv3 with
    | Some self => self
    | None => mkRecommender [] [] no_scaler []
    end.

Definition engine_close : MusicRecommender :=
  Eval vm_compute in
    match init csv_close with
    | Some self => self
    | None => mkRecommender [] [] no_scaler []
    end.


Definition track_A : Track := Eval vm_compute in iloc (df engine3) 0.
Definition track_C : Track := Eval vm_compute in iloc (df engine3) 2.

Definition no_recommendation : Recommendation := mkRecommendation no_track 0.

(** The first recommendation for seed A, asked for two, same artist kept. *)
Definition rec_A_first : Recommendation :=
  Eval vm_compute in
    nth 0 (get_recommendations engine3 "A" 2 false) no_recommendation.

(** The first recommendation for seed A, same artist excluded. *)
Definition rec_A_other_artist : Recommendation :=
  Eval vm_compute in
    nth 0 (get_recommendations engine3 "A" 2 true) no_recommendation.

(** Two tracks whose seven last features are all 5, the second with 0 for
    the two first: seven constant columns, and a second row that scales to
    the zero row. *)
Definition csv_degenerate : list RawRow :=
  [row "A" "x" "Alpha" 1 5; row "B" "y" "Beta" 0 5].

Definition engine_degenerate : MusicRecommender :=
  Eval vm_compute in
    match init csv_degenerate with
    | Some self => self
    | None => mkRecommender [] [] no_scaler []
    end.

(** A matrix of three rows whose last column is constant at -7. *)
Definition matrix_constant_column : list (list Q) :=
  [[1; 1; -7]; [0; 0; -7]; [1; 0; -7]].

Definition scaler_constant_column : MinMaxScaler :=
  Eval vm_compute in
    match fit matrix_constant_column with
    | Some sc => sc
    | None => no_scaler
    end.

(** A row with all its metadata given; an absent cell is [None]. *)
Definition row_meta (id artist name genre_name : option string)
    (pop : Z) (d o : Q) : RawRow :=
  mkRawRow id artist (Some "album"%string) name genre_name pop
           (mkFeatures (Num d) (Num d) (Num o) (Num o) (Num o) (Num o)
                       (Num o) (Num o) (Num o)).

(** Five rows: the identifier [a] comes twice, one genre has a capital
    letter, one artist and one genre are missing, two rows have the same
    name and artist, and two the same popularity. *)
Definition csv_mixed : list RawRow :=
  [row_meta (Some "a") (Some "Ann") (Some "One") (Some "rock") 40 1 0;
   row_meta (Some "b") (Some "Bob") (Some "Two") (Some "Rock") 70 0 1;
   row_meta (Some "a") (Some "Cat") (Some "Three") (Some "jazz") 90 1 1;
   row_meta (Some "c") None (Some "Two") None 70 (1 # 2) 0;
   row_meta (Some "d") (Some "Bob") (Some "Two") (Some "jazz") 10 (1 # 4) 1]%string.

Definition engine_mixed : MusicRecommender :=
  Eval vm_compute in
    match init csv_mixed with
    | Some self => self
    | None => mkRecommender [] [] no_scaler []
    end.

End Examples.

(** * Properties *)

Import Loader Numpy Sklearn Pandas Engine Spec Examples.

(** ** The loader *)

Section LoaderFacts.

Lemma fillna_coerce (c : raw_cell) :
  fillna 0 (to_numeric_coerce c) = Some (coerce0 c).
Proof. destruct c; reflexivity. Qed.

Lemma all_present_clean (f : Features raw_cell) :
  all_present (features_map (fun c => fillna 0 (to_numeric_coerce c)) f)
  = Some (features_map coerce0 f).
Proof.
  destruct f; unfold all_present, features_map; simpl.
  rewrite !fillna_coerce. reflexivity.
Qed.

(** After [fillna(0)], [dropna] finds nothing to drop. *)
Lemma dropna_drop_duplicates (seen : list string) (csv : list RawRow) :
  dropna (drop_duplicates_from seen (map clean_row csv))
  = drop_duplicates_from seen (map load_row csv).
Proof.
  revert seen; induction csv as [|r csv IH]; intros seen; simpl; [reflexivity|].
  destruct (bool_decide (astype_str (r_track_id r) ∈ seen)); [apply IH|].
  simpl. rewrite all_present_clean, IH. reflexivity.
Qed.

Lemma load_full_dataset_eq (csv : list RawRow) :
  load_full_dataset csv = drop_duplicates (map load_row csv).
Proof. apply dropna_drop_duplicates. Qed.

Lemma drop_duplicates_from_sub {A} (seen : list string) (l : list (Row A)) (r : Row A) :
  r ∈ drop_duplicates_from seen l → r ∈ l ∧ track_id r ∉ seen.
Proof.
  revert seen; induction l as [|x l IH]; intros seen; simpl.
  - intros H; inversion H.
  - case_bool_decide as Hx.
    + intros H; apply IH in H as [? ?]. split; [by right|done].
    + rewrite elem_of_cons. intros [->|H].
      * split; [by left|done].
      * apply IH in H as [? Hn]. split; [by right|].
        intros Hs. apply Hn. by right.
Qed.

Lemma drop_duplicates_from_ids {A} (seen : list string) (l : list (Row A)) (r : Row A) :
  r ∈ l → track_id r ∉ seen →
  track_id r ∈ map track_id (drop_duplicates_from seen l).
Proof.
  revert seen; induction l as [|x l IH]; intros seen; simpl.
  - intros H; inversion H.
  - rewrite elem_of_cons. intros [->|Hr] Hs.
    + rewrite bool_decide_eq_false_2 by done. simpl. by left.
    + case_bool_decide as Hx; [by apply IH|].
      simpl. destruct (decide (track_id r = track_id x)) as [->|Hne].
      * by left.
      * right. apply IH; [done|]. rewrite elem_of_cons. tauto.
Qed.

Lemma drop_duplicates_from_NoDup {A} (seen : list string) (l : list (Row A)) :
  NoDup (map track_id (drop_duplicates_from seen l)).
Proof.
  revert seen; induction l as [|x l IH]; intros seen; simpl.
  - constructor.
  - case_bool_decide as Hx; [apply IH|].
    simpl. constructor; [|apply IH].
    rewrite list_elem_of_fmap. intros (r & Heq & Hr).
    apply drop_duplicates_from_sub in Hr as [_ Hn].
    apply Hn. rewrite Heq. by left.
Qed.

(** The identifiers of the catalog are pairwise distinct. *)
Lemma load_full_dataset_NoDup (csv : list RawRow) :
  NoDup (map track_id (load_full_dataset csv)).
Proof. rewrite load_full_dataset_eq. apply drop_duplicates_from_NoDup. Qed.

(** No cell of an object column of the catalog is NaN. *)
Lemma load_full_dataset_filled (csv : list RawRow) (t : Track) :
  t ∈ load_full_dataset csv →
  is_Some (artists t) ∧ is_Some (track_name t).
Proof.
  rewrite load_full_dataset_eq. intros H.
  apply drop_duplicates_from_sub in H as [H _].
  apply list_elem_of_fmap in H as (r & -> & _).
  split; simpl; [destruct (r_artists r)|destruct (r_track_name r)]; simpl; eauto.
Qed.

End LoaderFacts.

(** C2, as stated, fails: a row whose [danceability] is missing is not
    dropped; it is in the catalog, with 0 for the missing feature. *)
Lemma C2_missing_feature_row_kept :
  ∃ r, r ∈ csv_missing_feature
       ∧ not_numeric (danceability (r_audio r)) = true
       ∧ astype_str (r_track_id r) ∈ map track_id (load_full_dataset csv_missing_feature)
       ∧ map (fun t => danceability (audio t)) (load_full_dataset csv_missing_feature) = [0].
Proof.
  eexists. split; [left|]. repeat split; vm_compute; try reflexivity.
  left.
Qed.

(** C2, amended: after [load_full_dataset] every track of the catalog comes
    from a row of the file and has all nine features, each the number of its
    cell, or 0 where the cell is missing or not a number; and the identifier
    of every row of the file is in the catalog: no row is dropped for its
    features. *)
Theorem C2_load_fills_missing_features (csv : list RawRow) :
  (∀ t, t ∈ load_full_dataset csv →
        ∃ r, r ∈ csv ∧ track_id t = astype_str (r_track_id r)
             ∧ audio t = features_map coerce0 (r_audio r)
             ∧ length (to_list (audio t)) = length AUDIO_FEATURES)
  ∧ (∀ r, r ∈ csv →
          astype_str (r_track_id r) ∈ map track_id (load_full_dataset csv)).
Proof.
  rewrite load_full_dataset_eq. split.
  - intros t Ht. apply drop_duplicates_from_sub in Ht as [Ht _].
    apply list_elem_of_fmap in Ht as (r & -> & Hr).
    exists r. repeat split; done.
  - intros r Hr.
    change (astype_str (r_track_id r)) with (track_id (load_row r)).
    apply drop_duplicates_from_ids; [|apply not_elem_of_nil].
    apply list_elem_of_fmap. eauto.
Qed.

(** ** Sorting: [np.argsort], reversed and cut *)

Section ArgsortFacts.

Lemma Qlt_bool_iff (x y : Q) : Qlt_bool x y = true ↔ x < y.
Proof.
  unfold Qlt_bool. rewrite negb_true_iff, <- not_true_iff_false, Qle_bool_iff.
  split; [apply Qnot_le_lt|apply Qlt_not_le].
Qed.

Lemma Qlt_bool_false (x y : Q) : Qlt_bool x y = false ↔ y <= x.
Proof.
  unfold Qlt_bool. rewrite negb_false_iff. apply Qle_bool_iff.
Qed.

Variable a : list Q.

Lemma elem_of_insert_index (i k : nat) (l : list nat) :
  k ∈ insert_index a i l ↔ k = i ∨ k ∈ l.
Proof.
  induction l as [|j l IH]; simpl.
  - rewrite list_elem_of_singleton, elem_of_nil. tauto.
  - destruct (Qlt_bool _ _); rewrite !elem_of_cons; [tauto|].
    rewrite IH. tauto.
Qed.

Lemma insert_index_perm (i : nat) (l : list nat) :
  Permutation (insert_index a i l) (i :: l).
Proof.
  induction l as [|j l IH]; simpl; [done|].
  destruct (Qlt_bool _ _); [done|].
  rewrite IH. apply perm_swap.
Qed.

Lemma asc_before_lt_trans (i j k : nat) :
  at_ 0 a i < at_ 0 a j → asc_before a j k → asc_before a i k.
Proof. unfold asc_before. intros Hij [Hjk|[Hjk _]]; left; lra. Qed.

(** Inserting an index larger than those already placed keeps the order. *)
Lemma insert_index_sorted (i : nat) (l : list nat) :
  Forall (fun j => (j < i)%nat) l →
  StronglySorted (asc_before a) l →
  StronglySorted (asc_before a) (insert_index a i l).
Proof.
  induction l as [|j l IH]; simpl; intros Hlt Hs.
  - repeat constructor.
  - apply StronglySorted_cons in Hs as [Hj Hs].
    apply Forall_cons in Hlt as [Hji Hlt].
    destruct (Qlt_bool (at_ 0 a i) (at_ 0 a j)) eqn:E.
    + apply Qlt_bool_iff in E.
      constructor; [by constructor|].
      constructor; [by left|].
      eapply Forall_impl; [exact Hj|].
      intros k Hk. by eapply asc_before_lt_trans.
    + apply Qlt_bool_false in E.
      constructor; [by apply IH|].
      apply Forall_forall. intros k Hk.
      apply elem_of_insert_index in Hk as [->|Hk].
      * destruct (Qle_lt_or_eq _ _ E) as [?|?]; [by left|by right].
      * by eapply Forall_forall in Hj.
Qed.

Lemma fold_insert_index (n s : nat) (acc : list nat) :
  Permutation acc (seq 0 s) →
  StronglySorted (asc_before a) acc →
  let r := fold_left (fun sorted i => insert_index a i sorted) (seq s n) acc in
  Permutation r (seq 0 (s + n)) ∧ StronglySorted (asc_before a) r.
Proof.
  revert s acc; induction n as [|n IH]; intros s acc Hp Hs; simpl.
  - by rewrite Nat.add_0_r.
  - replace (s + S n)%nat with (S s + n)%nat by lia.
    apply IH.
    + rewrite insert_index_perm, Hp, seq_S. simpl.
      apply Permutation_cons_append.
    + apply insert_index_sorted; [|done].
      apply Forall_forall. intros j Hj. rewrite Hp in Hj.
      apply list_elem_of_In, in_seq in Hj. lia.
Qed.

(** [argsort a] lists every index of [a] once. *)
Lemma argsort_perm : Permutation (argsort a) (seq 0 (length a)).
Proof. apply (fold_insert_index (length a) 0 []); [done|constructor]. Qed.

(** [argsort a] is by ascending value, equal values in index order. *)
Lemma argsort_sorted : StronglySorted (asc_before a) (argsort a).
Proof. apply (fold_insert_index (length a) 0 []); [done|constructor]. Qed.

Lemma argsort_length : length (argsort a) = length a.
Proof. rewrite argsort_perm. apply length_seq. Qed.

Lemma elem_of_argsort (i : nat) : i ∈ argsort a ↔ (i < length a)%nat.
Proof. rewrite argsort_perm, list_elem_of_In, in_seq. lia. Qed.

Lemma argsort_NoDup : NoDup (argsort a).
Proof. rewrite argsort_perm. apply NoDup_ListNoDup, seq_NoDup. Qed.

End ArgsortFacts.

Section ReverseFacts.

Context {A : Type} (R : relation A).

Lemma StronglySorted_rev (l : list A) :
  StronglySorted R l → StronglySorted (flip R) (rev l).
Proof.
  induction 1 as [|x l Hs IH Hx]; simpl; [constructor|].
  apply StronglySorted_app_2; [|done|repeat constructor].
  intros y z Hy Hz. apply list_elem_of_singleton in Hz as ->.
  apply list_elem_of_In, in_rev, list_elem_of_In in Hy.
  by eapply Forall_forall in Hx.
Qed.

Lemma StronglySorted_firstn (n : nat) (l : list A) :
  StronglySorted R l → StronglySorted R (firstn n l).
Proof.
  intros H. rewrite <- (firstn_skipn n l) in H.
  by apply StronglySorted_app_1_l in H.
Qed.

End ReverseFacts.

Section RankingFacts.

Variable a : list Q.


Lemma top_length (n : nat) :
  length (firstn n (rev (argsort a))) = Nat.min n (length a).
Proof. by rewrite length_firstn, length_rev, argsort_length. Qed.

Lemma top_in_range (n i : nat) :
  i ∈ firstn n (rev (argsort a)) → (i < length a)%nat.
Proof.
  intros H. apply subseteq_take in H.
  apply list_elem_of_In, in_rev, list_elem_of_In in H.
  by apply elem_of_argsort in H.
Qed.

Lemma top_NoDup (n : nat) : NoDup (firstn n (rev (argsort a))).
Proof.
  eapply sublist_NoDup; [|apply sublist_take]. apply NoDup_ListNoDup, NoDup_rev, NoDup_ListNoDup, argsort_NoDup.
Qed.

(** An index whose value is strictly below every other value is the last
    of the descending order: a proper prefix does not hold it. *)
Lemma top_excludes_minimum (n idx : nat) :
  (idx < length a)%nat →
  (∀ j, (j < length a)%nat → j ≠ idx → at_ 0 a idx < at_ 0 a j) →
  (n < length a)%nat →
  idx ∉ firstn n (rev (argsort a)).
Proof.
  intros Hidx Hmin Hn Hin.
  pose proof (StronglySorted_rev _ _ (argsort_sorted a)) as Hs.
  rewrite <- (firstn_skipn n (rev (argsort a))) in Hs.
  assert (Hnd : NoDup (rev (argsort a))).
  { apply NoDup_ListNoDup, NoDup_rev, NoDup_ListNoDup, argsort_NoDup. }
  rewrite <- (firstn_skipn n (rev (argsort a))) in Hnd.
  apply NoDup_app in Hnd as (_ & Hdisj & _).
  destruct (skipn n (rev (argsort a))) as [|j rest] eqn:E.
  - apply (f_equal length) in E. rewrite length_skipn, length_rev, argsort_length in E.
    simpl in E. lia.
  - rewrite <- E in Hs, Hdisj.
    assert (Hj : j ∈ skipn n (rev (argsort a))) by (rewrite E; left).
    assert (Hjl : j ∈ rev (argsort a)).
    { rewrite <- (firstn_skipn n). apply elem_of_app. by right. }
    apply list_elem_of_In, in_rev, list_elem_of_In, elem_of_argsort in Hjl.
    assert (Hne : j ≠ idx) by (intros ->; by apply (Hdisj idx)).
    pose proof (StronglySorted_app_1_elem_of _ _ _ _ _ Hs Hin Hj) as Hd.
    specialize (Hmin j Hjl Hne).
    destruct Hd as [Hd|[Hd _]]; lra.
Qed.

End RankingFacts.

(** ** Numbers: rounding, scaling and cosine similarity *)

Section RoundingFacts.

Lemma rint_mono (x y : Q) : x <= y → (rint x <= rint y)%Z.
Proof.
  intros Hxy. unfold rint.
  pose proof (Qfloor_resp_le _ _ Hxy) as Hf.
  pose proof (Qfloor_le x) as Hx1. pose proof (Qlt_floor x) as Hx2.
  pose proof (Qfloor_le y) as Hy1. pose proof (Qlt_floor y) as Hy2.
  destruct (Z.eq_dec (Qfloor x) (Qfloor y)) as [Heq|Hne].
  - rewrite Heq in *. clear Heq Hf.
    destruct (Qlt_bool (x - inject_Z (Qfloor y)) (1 # 2)) eqn:E1;
      destruct (Qlt_bool (1 # 2) (x - inject_Z (Qfloor y))) eqn:E2;
      destruct (Qlt_bool (y - inject_Z (Qfloor y)) (1 # 2)) eqn:E3;
      destruct (Qlt_bool (1 # 2) (y - inject_Z (Qfloor y))) eqn:E4;
      rewrite ?Qlt_bool_iff, ?Qlt_bool_false in *;
      destruct (Z.even (Qfloor y));
      first [lia | exfalso; lra].
  - repeat match goal with |- context [if ?b then _ else _] => destruct b end; lia.
Qed.

(** Rounding to one decimal keeps the order. *)
Lemma round1_mono (x y : Q) : x <= y → round1 x <= round1 y.
Proof.
  intros Hxy. unfold round1, Qdiv.
  apply Qmult_le_compat_r; [|done].
  rewrite <- Zle_Qle. apply rint_mono. lra.
Qed.

End RoundingFacts.

Section ScalingFacts.

Lemma handle_zeros_in_scale_pos (s : Q) : 0 < handle_zeros_in_scale s.
Proof.
  unfold handle_zeros_in_scale.
  destruct (Qlt_bool s (10 * eps)) eqn:E; [reflexivity|].
  apply Qlt_bool_false in E.
  assert (0 < 10 * eps) by reflexivity. lra.
Qed.

Lemma handle_zeros_in_scale_zero (s : Q) : s == 0 → handle_zeros_in_scale s = 1.
Proof.
  intros Hs. unfold handle_zeros_in_scale.
  destruct (Qlt_bool s (10 * eps)) eqn:E; [reflexivity|].
  apply Qlt_bool_false in E.
  assert (0 < 10 * eps) by reflexivity. lra.
Qed.

Lemma scale_pos (r : Q) : 0 < (1 - 0) / handle_zeros_in_scale r.
Proof.
  apply Qlt_shift_div_l; [apply handle_zeros_in_scale_pos|]. lra.
Qed.

Lemma zip_min_le (x y : list Q) :
  length x = length y →
  Forall2 Qle (zip_with Qmin x y) x ∧ Forall2 Qle (zip_with Qmin x y) y.
Proof.
  revert y; induction x as [|a x IH]; intros [|b y]; simpl; try done.
  intros [= Hl]. destruct (IH _ Hl).
  split; constructor; auto using Q.le_min_l, Q.le_min_r.
Qed.

Lemma zip_max_le (x y : list Q) :
  length x = length y →
  Forall2 Qle x (zip_with Qmax x y) ∧ Forall2 Qle y (zip_with Qmax x y).
Proof.
  revert y; induction x as [|a x IH]; intros [|b y]; simpl; try done.
  intros [= Hl]. destruct (IH _ Hl).
  split; constructor; auto using Q.le_max_l, Q.le_max_r.
Qed.

Lemma Forall2_Qle_trans (x y z : list Q) :
  Forall2 Qle x y → Forall2 Qle y z → Forall2 Qle x z.
Proof. apply Forall2_trans. intros ???. apply Qle_trans. Qed.

Lemma Forall2_Qle_refl (x : list Q) : Forall2 Qle x x.
Proof. induction x; constructor; [apply Qle_refl|done]. Qed.

(** [np.min(X, axis=0)]: below every row, column by column. *)
Lemma column_min_le (rest : list (list Q)) (row : list Q) :
  (∀ r, r ∈ rest → length r = length row) →
  ∀ r, r ∈ row :: rest → Forall2 Qle (fold_left (zip_with Qmin) rest row) r.
Proof.
  revert row; induction rest as [|x rest IH]; intros row Hlen r Hr; simpl.
  - apply list_elem_of_singleton in Hr as ->. apply Forall2_Qle_refl.
  - assert (Hx : length row = length x) by (symmetry; apply Hlen; left).
    destruct (zip_min_le row x Hx) as [H1 H2].
    assert (Hr' : r = row ∨ r = x ∨ r ∈ rest) by set_solver.
    assert (IH' : ∀ r', r' ∈ zip_with Qmin row x :: rest →
              Forall2 Qle (fold_left (zip_with Qmin) rest (zip_with Qmin row x)) r').
    { apply IH. intros r' Hr'2. rewrite length_zip_with_l_eq by done.
      apply Hlen. by right. }
    destruct Hr' as [->|[->|Hr']].
    + eapply Forall2_Qle_trans; [apply IH'; left|done].
    + eapply Forall2_Qle_trans; [apply IH'; left|done].
    + apply IH'. by right.
Qed.

(** [np.max(X, axis=0)]: above every row, column by column. *)
Lemma column_max_ge (rest : list (list Q)) (row : list Q) :
  (∀ r, r ∈ rest → length r = length row) →
  ∀ r, r ∈ row :: rest → Forall2 Qle r (fold_left (zip_with Qmax) rest row).
Proof.
  revert row; induction rest as [|x rest IH]; intros row Hlen r Hr; simpl.
  - apply list_elem_of_singleton in Hr as ->. apply Forall2_Qle_refl.
  - assert (Hx : length row = length x) by (symmetry; apply Hlen; left).
    destruct (zip_max_le row x Hx) as [H1 H2].
    assert (Hr' : r = row ∨ r = x ∨ r ∈ rest) by set_solver.
    assert (IH' : ∀ r', r' ∈ zip_with Qmax row x :: rest →
              Forall2 Qle r' (fold_left (zip_with Qmax) rest (zip_with Qmax row x))).
    { apply IH. intros r' Hr'2. rewrite length_zip_with_l_eq by done.
      apply Hlen. by right. }
    destruct Hr' as [->|[->|Hr']].
    + eapply Forall2_Qle_trans; [done|apply IH'; left].
    + eapply Forall2_Qle_trans; [done|apply IH'; left].
    + apply IH'. by right.
Qed.

(** A row that is above the column minima scales to non-negative numbers. *)
Lemma scaled_nonneg (dmin dmax row : list Q) :
  Forall2 Qle dmin row →
  let scale := map (fun r => (1 - 0) / handle_zeros_in_scale r)
                   (zip_with Qminus dmax dmin) in
  Forall (Qle 0)
    (zip_with Qplus (zip_with Qmult row scale)
                    (zip_with (fun m s => 0 - m * s) dmin scale)).
Proof.
  intros H; revert dmax; induction H as [|m x dmin row Hmx H IH];
    intros [|M dmax]; simpl; try constructor.
  - pose proof (scale_pos (M - m)) as Hs.
    set (s := (1 - 0) / handle_zeros_in_scale (M - m)) in *.
    assert (0 <= (x - m) * s) by (apply Qmult_le_0_compat; lra).
    change (0 <= x * s + (0 - m * s)). lra.
  - apply IH.
Qed.

(** The scaler fitted on [X] sends every row of [X] to non-negative numbers. *)
Lemma fit_transform_nonneg (X : list (list Q)) (sc : MinMaxScaler) (L : nat) :
  fit X = Some sc →
  (∀ r, r ∈ X → length r = L) →
  ∀ r, r ∈ transform sc X → Forall (Qle 0) r.
Proof.
  intros Hfit Hlen r Hr. destruct X as [|row rest]; [done|].
  injection Hfit as <-.
  apply list_elem_of_fmap in Hr as (x & -> & Hx).
  unfold transform_row; simpl.
  apply scaled_nonneg, column_min_le; [|done].
  intros r' Hr'. rewrite (Hlen row) by left. apply Hlen. by right.
Qed.

End ScalingFacts.

Section CosineFacts.

Lemma dot_nonneg (x y : list Q) :
  Forall (Qle 0) x → Forall (Qle 0) y → 0 <= dot x y.
Proof.
  intros Hx; revert y; induction Hx as [|a x Ha Hx IH]; intros y Hy.
  - destruct y; apply Qle_refl.
  - destruct Hy as [|b y Hb Hy]; [apply Qle_refl|].
    unfold dot; simpl. specialize (IH _ Hy). unfold dot in IH.
    pose proof (Qmult_le_0_compat _ _ Ha Hb). lra.
Qed.

Lemma normalize_row_nonneg (x : list Q) :
  Forall (Qle 0) x → Forall (Qle 0) (normalize_row x).
Proof.
  intros Hx. unfold normalize_row. apply Forall_fmap.
  eapply Forall_impl; [exact Hx|]. intros c Hc. simpl.
  apply Qle_shift_div_l; [apply handle_zeros_in_scale_pos|]. lra.
Qed.

(** The similarities of one row against a matrix, as the engine reads them. *)
Lemma cosine_similarity_row (x : list Q) (Y : list (list Q)) :
  at_ [] (cosine_similarity [x] Y) 0
  = map (fun y => dot (normalize_row x) (normalize_row y)) Y.
Proof. reflexivity. Qed.

Lemma cosine_similarity_nonneg (x : list Q) (Y : list (list Q)) :
  Forall (Qle 0) x → Forall (Forall (Qle 0)) Y →
  Forall (Qle 0) (at_ [] (cosine_similarity [x] Y) 0).
Proof.
  intros Hx HY. rewrite cosine_similarity_row. apply Forall_fmap.
  eapply Forall_impl; [exact HY|]. intros y Hy. simpl.
  apply dot_nonneg; by apply normalize_row_nonneg.
Qed.

End CosineFacts.

(** ** The engine: construction, lookup and result building *)

Section EngineFacts.

Lemma at_lookup {A} (d : A) (l : list A) (i : nat) (x : A) :
  l !! i = Some x → at_ d l i = x.
Proof. apply nth_lookup_Some. Qed.

Lemma at_elem_of {A} (d : A) (l : list A) (i : nat) :
  (i < length l)%nat → at_ d l i ∈ l.
Proof.
  intros Hi. destruct (lookup_lt_is_Some_2 l i Hi) as [x Hx].
  rewrite (at_lookup _ _ _ _ Hx). by eapply list_elem_of_lookup_2.
Qed.

Lemma at_set_at_ne {A} (d : A) (l : list A) (i j : nat) (x : A) :
  i ≠ j → at_ d (set_at l i x) j = at_ d l j.
Proof.
  intros Hne. unfold at_, set_at. rewrite !nth_lookup.
  by rewrite list_lookup_insert_ne.
Qed.

Lemma at_set_at_eq {A} (d : A) (l : list A) (i : nat) (x : A) :
  (i < length l)%nat → at_ d (set_at l i x) i = x.
Proof.
  intros Hi. unfold at_, set_at. rewrite nth_lookup.
  by rewrite list_lookup_insert_eq.
Qed.

(** What [init] builds. *)
Lemma init_Some (csv : list RawRow) (self : MusicRecommender) :
  init csv = Some self →
  df self = load_full_dataset csv
  ∧ fit (map (fun t => to_list (audio t)) (df self)) = Some (scaler self)
  ∧ scaled_features self
    = transform (scaler self) (map (fun t => to_list (audio t)) (df self)).
Proof.
  unfold init. destruct (fit _) as [sc|] eqn:E; [|done].
  intros [= <-]. simpl. auto.
Qed.

Lemma init_length (csv : list RawRow) (self : MusicRecommender) :
  init csv = Some self → length (scaled_features self) = length (df self).
Proof.
  intros (_ & _ & ->)%init_Some. unfold transform. by rewrite !length_map.
Qed.

(** The scaled features of the catalog are non-negative. *)
Lemma init_scaled_nonneg (csv : list RawRow) (self : MusicRecommender) :
  init csv = Some self → Forall (Forall (Qle 0)) (scaled_features self).
Proof.
  intros (_ & Hfit & ->)%init_Some. apply Forall_forall. intros r Hr.
  eapply (fit_transform_nonneg _ _ 9); [exact Hfit| |exact Hr].
  intros x (t & -> & _)%list_elem_of_fmap. reflexivity.
Qed.

Lemma seed_similarities_length (self : MusicRecommender) (idx : nat) :
  length (seed_similarities self idx) = length (scaled_features self).
Proof. unfold seed_similarities. rewrite cosine_similarity_row. apply length_map. Qed.

Lemma seed_similarities_nonneg (csv : list RawRow) (self : MusicRecommender) (idx : nat) :
  init csv = Some self → Forall (Qle 0) (seed_similarities self idx).
Proof.
  intros Hinit. pose proof (init_scaled_nonneg _ _ Hinit) as Hnn.
  apply cosine_similarity_nonneg; [|done].
  destruct (decide (idx < length (scaled_features self))%nat) as [Hi|Hi].
  - eapply Forall_forall in Hnn; [exact Hnn|]. by apply at_elem_of.
  - unfold at_. rewrite nth_overflow by lia. constructor.
Qed.

Lemma first_index_from_Some (df : list Track) (id : string) (s idx : nat) :
  first_index_from s df id = Some idx →
  (s <= idx)%nat ∧ (idx - s < length df)%nat ∧ track_id (iloc df (idx - s)) = id.
Proof.
  revert s; induction df as [|t df IH]; intros s; simpl; [done|].
  destruct (String.eqb (track_id t) id) eqn:E.
  - intros [= <-]. apply String.eqb_eq in E.
    rewrite Nat.sub_diag. split; [lia|]. split; [lia|done].
  - intros H. apply IH in H as (H1 & H2 & H3).
    split; [lia|]. split; [lia|].
    replace (idx - s)%nat with (S (idx - S s)) by lia. exact H3.
Qed.

Lemma first_index_Some (df : list Track) (id : string) (idx : nat) :
  first_index df id = Some idx →
  (idx < length df)%nat ∧ track_id (iloc df idx) = id.
Proof.
  intros H. apply first_index_from_Some in H as (_ & H2 & H3).
  rewrite Nat.sub_0_r in *. done.
Qed.

Lemma first_index_from_None (df : list Track) (id : string) (s : nat) :
  first_index_from s df id = None ↔ id ∉ map track_id df.
Proof.
  revert s; induction df as [|t df IH]; intros s; simpl.
  - split; [intros _; apply not_elem_of_nil|done].
  - destruct (String.eqb (track_id t) id) eqn:E.
    + apply String.eqb_eq in E. split; [done|]. intros H. exfalso. apply H.
      rewrite <- E. left.
    + apply String.eqb_neq in E. rewrite IH, not_elem_of_cons.
      split; [intros ?; split; [congruence|done]|by intros [_ ?]].
Qed.

(** Distinct rows of a catalog with distinct identifiers differ in them. *)
Lemma iloc_inj (df : list Track) (i j : nat) :
  NoDup (map track_id df) → (i < length df)%nat → (j < length df)%nat →
  track_id (iloc df i) = track_id (iloc df j) → i = j.
Proof.
  intros Hnd Hi Hj Heq. apply NoDup_ListNoDup in Hnd.
  eapply (proj1 (NoDup_nth _ (track_id no_track)) Hnd);
    rewrite ?length_map; try done.
  unfold iloc, at_ in Heq. by rewrite !map_nth.
Qed.

(** The row of a track of the catalog is the one its identifier finds. *)
Lemma first_index_of_track (df : list Track) (i : Track) :
  NoDup (map track_id df) → i ∈ df →
  ∃ idx, first_index df (track_id i) = Some idx
         ∧ (idx < length df)%nat ∧ iloc df idx = i.
Proof.
  intros Hnd Hi.
  destruct (first_index df (track_id i)) as [idx|] eqn:E.
  - exists idx. destruct (first_index_Some _ _ _ E) as [Hlt Hid].
    repeat split; [done|].
    apply list_elem_of_lookup in Hi as [p Hp].
    assert (Hpl : (p < length df)%nat) by by eapply lookup_lt_Some.
    assert (Hpi : iloc df p = i) by by apply at_lookup.
    rewrite <- Hpi in Hid |- *. f_equal. by eapply iloc_inj.
  - apply first_index_from_None in E. exfalso. apply E.
    apply list_elem_of_fmap. eauto.
Qed.

Lemma elem_of_build (df : list Track) (ti : list nat) (ts : list Q)
    (rec : Recommendation) :
  rec ∈ build df ti ts → ∃ j, j ∈ ti ∧ track rec = iloc df j.
Proof.
  revert ts; induction ti as [|j ti IH]; intros [|s ts]; simpl;
    try (intros H; by inversion H).
  rewrite elem_of_cons. intros [->|H].
  - exists j. split; [left|done].
  - apply IH in H as (k & Hk & Hr). exists k. split; [by right|done].
Qed.

Lemma build_length (df : list Track) (ti : list nat) (ts : list Q) :
  length ti = length ts → length (build df ti ts) = length ti.
Proof.
  revert ts; induction ti as [|j ti IH]; intros [|s ts]; simpl; try done.
  intros [= H]. by rewrite IH.
Qed.

Lemma where_from_spec (mask : list bool) (s j : nat) :
  j ∈ where_from s mask ↔ (s <= j)%nat ∧ mask !! (j - s)%nat = Some true.
Proof.
  revert s; induction mask as [|b mask IH]; intros s; simpl.
  - rewrite elem_of_nil. split; [done|by intros [_ ?]].
  - assert (Hstep : (S s <= j)%nat ∧ mask !! (j - S s)%nat = Some true
                    ↔ (s < j)%nat ∧ (b :: mask) !! (j - s)%nat = Some true).
    { split; intros [H1 H2]; (split; [lia|]).
      - by replace (j - s)%nat with (S (j - S s)) by lia.
      - by replace (j - s)%nat with (S (j - S s)) in H2 by lia. }
    destruct b; rewrite ?elem_of_cons, IH, Hstep.
    + split.
      * intros [->|[H1 H2]]; [|split; [lia|done]].
        rewrite Nat.sub_diag. split; [lia|done].
      * intros [H1 H2]. destruct (decide (j = s)) as [->|Hne]; [by left|].
        right. split; [lia|done].
    + split; [intros [H1 H2]; split; [lia|done]|].
      intros [H1 H2]. destruct (decide (j = s)) as [->|Hne].
      * rewrite Nat.sub_diag in H2. done.
      * split; [lia|done].
Qed.

Lemma where_spec (mask : list bool) (j : nat) :
  j ∈ where_ mask ↔ mask !! j = Some true.
Proof.
  unfold where_. rewrite where_from_spec, Nat.sub_0_r. split; [tauto|].
  intros H. split; [lia|done].
Qed.

(** [np.where] lists the positions in increasing order. *)
Lemma where_from_sorted (mask : list bool) (s : nat) :
  StronglySorted lt (where_from s mask).
Proof.
  revert s; induction mask as [|b mask IH]; intros s; simpl; [constructor|].
  destruct b; [|apply IH]. constructor; [apply IH|].
  apply Forall_forall. intros j Hj. apply where_from_spec in Hj. lia.
Qed.

End EngineFacts.

(** ** Recommendations from a seed track *)

Section SeedFacts.

Variables (csv : list RawRow) (self : MusicRecommender).
Hypothesis Hinit : init csv = Some self.

Lemma df_NoDup : NoDup (map track_id (df self)).
Proof.
  destruct (init_Some _ _ Hinit) as (-> & _). apply load_full_dataset_NoDup.
Qed.

Lemma seed_similarities_df_length (idx : nat) :
  length (seed_similarities self idx) = length (df self).
Proof. rewrite seed_similarities_length. by eapply init_length. Qed.

(** Same artist kept: the rows ranked for at most N-1 recommendations are
    rows of the catalog other than the seed. *)
Lemma seed_ranking_plain_indices (idx k j : nat) :
  (idx < length (df self))%nat →
  (k <= length (df self) - 1)%nat →
  j ∈ (seed_ranking self idx k false).1 →
  (j < length (df self))%nat ∧ j ≠ idx.
Proof.
  intros Hidx Hk Hj. unfold seed_ranking in Hj. cbn [fst] in Hj.
  set (a := set_at (seed_similarities self idx) idx (-1)) in *.
  assert (Hlen : length a = length (df self)).
  { unfold a, set_at. by rewrite length_insert, seed_similarities_df_length. }
  split.
  - apply top_in_range in Hj. lia.
  - intros ->. revert Hj. apply top_excludes_minimum; [lia| |lia].
    intros j Hjl Hne. unfold a.
    rewrite at_set_at_eq by (rewrite seed_similarities_df_length; lia).
    rewrite at_set_at_ne by done.
    pose proof (seed_similarities_nonneg _ _ idx Hinit) as Hnn.
    rewrite (Forall_nth _ 0) in Hnn.
    assert (0 <= at_ 0 (seed_similarities self idx) j).
    { apply Hnn. rewrite seed_similarities_df_length. lia. }
    lra.
Qed.

End SeedFacts.

Section ExcludeFacts.

Variable self : MusicRecommender.

(** Same artist excluded: the rows ranked are rows of the catalog other than
    the seed, whose artist differs from the seed's. *)
Lemma seed_ranking_exclude_indices (idx k j : nat) :
  (idx < length (df self))%nat →
  j ∈ (seed_ranking self idx k true).1 →
  (j < length (df self))%nat ∧ j ≠ idx
  ∧ cell_ne (artists (iloc (df self) j)) (artists (iloc (df self) idx)) = true.
Proof.
  intros Hidx Hj. unfold seed_ranking in Hj. cbn [fst] in Hj.
  set (mask := map (fun t => cell_ne (artists t) (artists (iloc (df self) idx)))
                   (df self)) in *.
  set (valid := where_ (set_at mask idx false)) in *.
  unfold take_idx in Hj. apply list_elem_of_fmap in Hj as (l & -> & Hl).
  apply top_in_range in Hl. unfold take_at in Hl. rewrite length_map in Hl.
  apply (at_elem_of 0%nat) in Hl.
  apply where_spec in Hl. set (j := at_ 0%nat valid l) in *.
  assert (Hml : length mask = length (df self)) by apply length_map.
  assert (Hne : j ≠ idx).
  { intros Heq. rewrite Heq in Hl. unfold set_at in Hl.
    rewrite list_lookup_insert_eq in Hl by lia. done. }
  unfold set_at in Hl. rewrite list_lookup_insert_ne in Hl by done.
  assert (Hjl : (j < length (df self))%nat).
  { rewrite <- Hml. by eapply lookup_lt_Some. }
  repeat split; [done..|].
  unfold mask in Hl. apply list_lookup_fmap_Some_1 in Hl as (t & Heq & Ht).
  unfold iloc at 1. by rewrite (at_lookup _ _ _ _ Ht).
Qed.

End ExcludeFacts.

(** C1: the recommendations for a track of the catalog, asked for at most
    catalog size minus one, never hold that track, the same artist excluded
    or not. *)
Theorem C1_seed_never_recommended (csv : list RawRow) (self : MusicRecommender)
    (i : Track) (k : nat) (exclude_same_artist : bool) (rec : Recommendation) :
  init csv = Some self →
  i ∈ df self →
  (k <= length (df self) - 1)%nat →
  rec ∈ get_recommendations self (track_id i) k exclude_same_artist →
  track rec ≠ i ∧ track_id (track rec) ≠ track_id i.
Proof.
  intros Hinit Hi Hk Hrec.
  pose proof (df_NoDup _ _ Hinit) as Hnd.
  destruct (first_index_of_track _ _ Hnd Hi) as (idx & Hfi & Hlt & Hil).
  unfold get_recommendations in Hrec. rewrite Hfi in Hrec.
  destruct (seed_ranking self idx k exclude_same_artist) as [ti ts] eqn:E.
  apply elem_of_build in Hrec as (j & Hj & Hrec).
  assert (Hjr : (j < length (df self))%nat ∧ j ≠ idx).
  { destruct exclude_same_artist.
    - destruct (seed_ranking_exclude_indices self idx k j Hlt) as (? & ? & _);
        [by rewrite E|done].
    - eapply seed_ranking_plain_indices; [done..|by rewrite E]. }
  destruct Hjr as [Hjl Hne].
  assert (Hid : track_id (track rec) ≠ track_id i).
  { rewrite Hrec, <- Hil. intros Heq. apply Hne. by eapply iloc_inj. }
  split; [|done]. intros Heq. apply Hid. by rewrite Heq.
Qed.

Lemma C1_seed_never_recommended_witness :
  track rec_A_first ≠ track_A ∧ track_id (track rec_A_first) ≠ track_id track_A.
Proof.
  apply (C1_seed_never_recommended csv3 engine3 track_A 2 false rec_A_first).
  - vm_compute. reflexivity.
  - vm_compute. left.
  - vm_compute. lia.
  - vm_compute. left.
Defined.

(** C4: with the same artist excluded, no recommendation for a track of the
    catalog has the artist of that track. *)
Theorem C4_no_recommendation_by_seed_artist (csv : list RawRow)
    (self : MusicRecommender) (i : Track) (k : nat) (rec : Recommendation) :
  init csv = Some self →
  i ∈ df self →
  rec ∈ get_recommendations self (track_id i) k true →
  artists (track rec) ≠ artists i.
Proof.
  intros Hinit Hi Hrec.
  pose proof (df_NoDup _ _ Hinit) as Hnd.
  destruct (first_index_of_track _ _ Hnd Hi) as (idx & Hfi & Hlt & Hil).
  unfold get_recommendations in Hrec. rewrite Hfi in Hrec.
  destruct (seed_ranking self idx k true) as [ti ts] eqn:E.
  apply elem_of_build in Hrec as (j & Hj & Hrec).
  destruct (seed_ranking_exclude_indices self idx k j Hlt) as (_ & _ & Hne);
    [by rewrite E|].
  rewrite Hil, <- Hrec in Hne. intros Heq. rewrite Heq in Hne.
  destruct (init_Some _ _ Hinit) as (Hdf & _). rewrite Hdf in Hi.
  destruct (load_full_dataset_filled _ _ Hi) as [[x Hx] _].
  rewrite Hx in Hne. simpl in Hne. by rewrite String.eqb_refl in Hne.
Qed.

Lemma C4_no_recommendation_by_seed_artist_witness :
  artists (track rec_A_other_artist) ≠ artists track_A.
Proof.
  apply (C4_no_recommendation_by_seed_artist csv3 engine3 track_A 2
           rec_A_other_artist).
  - vm_compute. reflexivity.
  - vm_compute. left.
  - vm_compute. left.
Defined.

(** ** The order of a result *)

Section OrderFacts.

Lemma StronglySorted_map_in {A B} (R1 : relation A) (R2 : relation B)
    (f : A → B) (l : list A) :
  (∀ x y, x ∈ l → y ∈ l → R1 x y → R2 (f x) (f y)) →
  StronglySorted R1 l → StronglySorted R2 (map f l).
Proof.
  intros Hf Hs; induction Hs as [|x l Hs IH Hx]; simpl; constructor.
  - apply IH. intros y z Hy Hz. apply Hf; by right.
  - apply Forall_fmap, Forall_forall. intros y Hy. simpl.
    apply Hf; [left|by right|]. by eapply Forall_forall in Hx.
Qed.

Lemma StronglySorted_lt_at (w : list nat) (p q : nat) :
  StronglySorted lt w → (p < q)%nat → (q < length w)%nat →
  (at_ 0 w p < at_ 0 w q)%nat.
Proof.
  intros Hs; revert p q; induction Hs as [|x w Hs IH Hx]; intros p q Hpq Hq.
  - simpl in Hq. lia.
  - destruct q as [|q]; [lia|]. simpl in Hq.
    destruct p as [|p]; simpl.
    + eapply Forall_forall in Hx; [exact Hx|]. apply at_elem_of. lia.
    + apply IH; lia.
Qed.

Lemma combine_map_map {A B C} (f : A → B) (g : A → C) (l : list A) :
  combine (map f l) (map g l) = map (fun x => (f x, g x)) l.
Proof. induction l; simpl; congruence. Qed.

Lemma combine_map_r {A B} (f : A → B) (l : list A) :
  combine l (map f l) = map (fun x => (x, f x)) l.
Proof. induction l; simpl; congruence. Qed.

Lemma score_mono (x y : Q) : x <= y → round1 (x * 100) <= round1 (y * 100).
Proof. intros H. apply round1_mono. lra. Qed.

Lemma build_score (df : list Track) (ti : list nat) (ts : list Q)
    (rec : Recommendation) :
  rec ∈ build df ti ts → ∃ s, s ∈ ts ∧ similarity_score rec = round1 (s * 100).
Proof.
  revert ts; induction ti as [|j ti IH]; intros [|s ts]; simpl;
    try (intros H; by inversion H).
  rewrite elem_of_cons. intros [->|H].
  - exists s. split; [left|done].
  - apply IH in H as (s' & Hs' & Hr). exists s'. split; [by right|done].
Qed.




Variable self : MusicRecommender.


Lemma seed_ranking_lengths (idx k : nat) (exclude_same_artist : bool) :
  length (seed_ranking self idx k exclude_same_artist).1
  = length (seed_ranking self idx k exclude_same_artist).2.
Proof.
  unfold seed_ranking. destruct exclude_same_artist; cbn [fst snd];
    unfold take_idx, take_at; by rewrite !length_map.
Qed.




End OrderFacts.



Example scores_of_a_result_do_not_increase :
  map (fun r => track_id (track r))
      (get_recommendations engine_close "S" 3 false)
  = ["Q"; "P"; "Z"]%string
  ∧ map (fun r => Qred (similarity_score r))
        (get_recommendations engine_close "S" 3 false)
    = [999 # 10; 999 # 10; 0].
Proof. split; vm_compute; reflexivity. Qed.

(** ** Degenerate numbers *)

Section DegenerateFacts.

(** A column whose minimum and maximum agree scales to 0 on every row
    between them. *)
Lemma scaled_constant_column (dmin dmax row : list Q) (j : nat) :
  Forall2 Qle dmin row → Forall2 Qle row dmax →
  at_ 0 dmin j == at_ 0 dmax j →
  let range := zip_with Qminus dmax dmin in
  let scale := map (fun r => (1 - 0) / handle_zeros_in_scale r) range in
  handle_zeros_in_scale (at_ 0 range j) = 1
  ∧ at_ 0 (zip_with Qplus (zip_with Qmult row scale)
                          (zip_with (fun m s => 0 - m * s) dmin scale)) j == 0.
Proof.
  intros Hmin; revert dmax j.
  induction Hmin as [|m x dmin row Hmx Hmin IH]; intros dmax j Hmax Heq.
  - inversion Hmax; subst. simpl. destruct j; simpl; split;
      by try apply handle_zeros_in_scale_zero.
  - inversion Hmax as [|? M ? dmax' HxM Hmax']; subst.
    destruct j as [|j]; cbn -[Qminus Qdiv Qmult Qplus].
    + unfold at_ in Heq; simpl in Heq.
      assert (Hz : M - m == 0) by lra.
      rewrite (handle_zeros_in_scale_zero _ Hz). split; [done|].
      field_simplify_eq. lra.
    + apply IH; [done|]. exact Heq.
Qed.

Lemma sqrt_zero (s : Q) : sqrt s == 0 → s <= 0.
Proof.
  intros H. rewrite <- (Qred_correct s). unfold sqrt in H.
  destruct (Qred s) as [n d]. revert H. unfold Qeq, Qle; simpl.
  rewrite !Z.mul_1_r. intros H.
  destruct (Z.le_gt_cases n 0) as [Hn|Hn]; [done|exfalso].
  assert (Hc : (0 < 4 ^ 52)%Z) by reflexivity.
  assert (Hp : (0 < n * Z.pos d * 4 ^ 52)%Z).
  { apply Z.mul_pos_pos; [|done]. apply Z.mul_pos_pos; lia. }
  apply Z.sqrt_pos in Hp. lia.
Qed.

Lemma square_nonneg (a : Q) : 0 <= a * a.
Proof. nra. Qed.

Lemma dot_self_nonneg (x : list Q) : 0 <= dot x x.
Proof.
  induction x as [|a x IH]; [apply Qle_refl|].
  unfold dot in *; simpl. pose proof (square_nonneg a). lra.
Qed.

Lemma dot_self_zero (x : list Q) : dot x x <= 0 → Forall (Qeq 0) x.
Proof.
  induction x as [|a x IH]; [constructor|].
  pose proof (dot_self_nonneg x) as Hx. unfold dot in *; simpl.
  pose proof (square_nonneg a) as Ha. intros H.
  constructor; [|apply IH; lra].
  assert (Hz : a * a == 0) by lra.
  apply Qmult_integral in Hz. destruct Hz; lra.
Qed.

Lemma dot_zero_l (x y : list Q) : Forall (Qeq 0) x → dot x y == 0.
Proof.
  intros Hx; revert y; induction Hx as [|a x Ha Hx IH]; intros [|b y];
    try reflexivity.
  unfold dot in *; simpl. rewrite IH, <- Ha. ring.
Qed.

Lemma dot_zero_r (x y : list Q) : Forall (Qeq 0) y → dot x y == 0.
Proof.
  intros Hy; revert x; induction Hy as [|b y Hb Hy IH]; intros [|a x];
    try reflexivity.
  unfold dot in *; simpl. rewrite IH, <- Hb. ring.
Qed.

(** A row of norm zero is the zero row, and normalizing it divides by 1. *)
Lemma normalize_row_zero (x : list Q) :
  row_norm x == 0 →
  handle_zeros_in_scale (row_norm x) = 1 ∧ Forall (Qeq 0) (normalize_row x).
Proof.
  intros Hn. pose proof (handle_zeros_in_scale_zero _ Hn) as Hh.
  split; [done|]. unfold normalize_row. rewrite Hh.
  apply Forall_fmap. apply sqrt_zero, dot_self_zero in Hn.
  eapply Forall_impl; [exact Hn|]. intros c Hc. simpl.
  rewrite <- Hc. reflexivity.
Qed.

(** The zero row has norm zero. *)
Lemma row_norm_zero (x : list Q) : Forall (Qeq 0) x → row_norm x == 0.
Proof.
  intros Hx. unfold row_norm.
  assert (Hd : dot x x == 0) by (by apply dot_zero_l).
  unfold sqrt. rewrite (Qred_complete _ _ Hd). reflexivity.
Qed.

Lemma scaled_length (dmin dmax row : list Q) :
  Forall2 Qle dmin row → Forall2 Qle row dmax →
  let scale := map (fun r => (1 - 0) / handle_zeros_in_scale r)
                   (zip_with Qminus dmax dmin) in
  length (zip_with Qplus (zip_with Qmult row scale)
                         (zip_with (fun m s => 0 - m * s) dmin scale))
  = length row.
Proof.
  intros Hmin; revert dmax.
  induction Hmin as [|m x dmin row Hmx Hmin IH]; intros dmax Hmax.
  - inversion Hmax; subst. reflexivity.
  - inversion Hmax as [|? M ? dmax' HxM Hmax']; subst.
    cbn -[Qminus Qdiv Qmult Qplus]. f_equal. by apply IH.
Qed.

Lemma scale_length (dmin dmax row : list Q) :
  Forall2 Qle dmin row → Forall2 Qle row dmax →
  length (map (fun r => (1 - 0) / handle_zeros_in_scale r)
              (zip_with Qminus dmax dmin)) = length row.
Proof.
  intros Hmin Hmax. apply Forall2_length in Hmin, Hmax.
  rewrite length_map, length_zip_with_l_eq; lia.
Qed.

(** The scale of a column whose minimum and maximum agree is 1. *)
Lemma scale_constant_column (dmin dmax row : list Q) (j : nat) :
  Forall2 Qle dmin row → Forall2 Qle row dmax →
  (j < length row)%nat →
  at_ 0 dmin j == at_ 0 dmax j →
  at_ 0 (map (fun r => (1 - 0) / handle_zeros_in_scale r)
             (zip_with Qminus dmax dmin)) j == 1.
Proof.
  intros Hmin; revert dmax j.
  induction Hmin as [|m x dmin row Hmx Hmin IH]; intros dmax j Hmax Hj Heq.
  - simpl in Hj. lia.
  - inversion Hmax as [|? M ? dmax' HxM Hmax']; subst.
    destruct j as [|j]; cbn -[Qminus Qdiv Qmult Qplus].
    + unfold at_ in Heq; simpl in Heq.
      assert (Hz : M - m == 0) by lra.
      rewrite (handle_zeros_in_scale_zero _ Hz). field.
    + simpl in Hj. apply IH; [done|lia|done].
Qed.

Lemma divide_defined (x y : Q) : 0 < y → divide x y = Some (x / y).
Proof.
  intros Hy. unfold divide. destruct (Qeq_bool y 0) eqn:E; [|done].
  apply Qeq_bool_eq in E. lra.
Qed.

Lemma mapM_total {A B} (f : A → option B) (g : A → B) (l : list A) :
  (∀ x, f x = Some (g x)) → mapM f l = Some (map g l).
Proof.
  intros Hf. induction l as [|x l IH]; [done|].
  cbn. by rewrite Hf, IH.
Qed.

(** No division of [fit] is by zero: the checked computation gives the
    scaler of [fit]. *)
Lemma fit_checked_fit (X : list (list Q)) :
  fit_checked X = match fit X with Some sc => Finite sc | None => Raised end.
Proof.
  destruct X as [|row rest]; [done|]. unfold fit_checked, fit.
  rewrite (mapM_total _ (fun r => (1 - 0) / handle_zeros_in_scale r)); [done|].
  intros r. apply divide_defined, handle_zeros_in_scale_pos.
Qed.

Lemma normalize_row_checked_normalize (x : list Q) :
  normalize_row_checked x = Some (normalize_row x).
Proof.
  unfold normalize_row_checked, normalize_row. apply mapM_total.
  intros c. apply divide_defined, handle_zeros_in_scale_pos.
Qed.

(** No division of [cosine_similarity] is by zero. *)
Lemma cosine_similarity_checked_cosine (X Y : list (list Q)) :
  cosine_similarity_checked X Y = Some (cosine_similarity X Y).
Proof.
  unfold cosine_similarity_checked, cosine_similarity.
  rewrite !(mapM_total _ normalize_row) by apply normalize_row_checked_normalize.
  f_equal. rewrite map_map. apply map_ext. intros x. by rewrite map_map.
Qed.

End DegenerateFacts.

(** C6: scaling and similarity are defined on degenerate input. With every
    division checked, [fit] and [cosine_similarity] give the results they
    give unchecked: no division is by zero, no inf or NaN arises. A feature
    column whose minimum equals its maximum over the catalog has the scale 1
    and scales to 0 on every row of the scaled matrix, which has a row of
    nine features per track; the zero row has norm zero, is normalized by a
    division by 1, stays the zero row, and has similarity 0 with every row,
    on either side, and as a seed against every row of the catalog. *)
Theorem C6_degenerate_input_is_neutral :
  (∀ X, fit_checked X = match fit X with Some sc => Finite sc | None => Raised end)
  ∧ (∀ X Y, cosine_similarity_checked X Y = Some (cosine_similarity X Y))
  ∧ (∀ csv self j,
       init csv = Some self → (j < 9)%nat →
       at_ 0 (data_min_ (scaler self)) j == at_ 0 (data_max_ (scaler self)) j →
       length (scale_ (scaler self)) = 9%nat
       ∧ at_ 0 (scale_ (scaler self)) j == 1
       ∧ length (scaled_features self) = length (df self)
       ∧ ∀ r, r ∈ scaled_features self → length r = 9%nat ∧ at_ 0 r j == 0)
  ∧ (∀ x y,
       Forall (Qeq 0) x →
       row_norm x == 0
       ∧ normalize_row_checked x = Some (normalize_row x)
       ∧ handle_zeros_in_scale (row_norm x) = 1
       ∧ length (normalize_row x) = length x
       ∧ Forall (Qeq 0) (normalize_row x)
       ∧ dot (normalize_row x) (normalize_row y) == 0
       ∧ dot (normalize_row y) (normalize_row x) == 0)
  ∧ (∀ self idx,
       Forall (Qeq 0) (at_ [] (scaled_features self) idx) →
       length (seed_similarities self idx) = length (scaled_features self)
       ∧ Forall (Qeq 0) (seed_similarities self idx)).
Proof.
  split; [apply fit_checked_fit|]. split; [apply cosine_similarity_checked_cosine|].
  split; [|split].
  - intros csv self j Hinit Hj Heq.
    destruct (init_Some _ _ Hinit) as (_ & Hfit & Hsc).
    pose proof (init_length _ _ Hinit) as Hrows.
    set (X := map (fun t => to_list (audio t)) (df self)) in *.
    assert (Hlen : ∀ r, r ∈ X → length r = 9%nat).
    { intros r (t & -> & _)%list_elem_of_fmap. reflexivity. }
    destruct X as [|row rest] eqn:EX; [done|].
    injection Hfit as Hfit. rewrite <- Hfit in Heq |- *. simpl in Heq |- *.
    assert (Hrest : ∀ r, r ∈ rest → length r = length row).
    { intros r Hr. rewrite (Hlen row) by left. apply Hlen. by right. }
    assert (Hrow : row ∈ row :: rest) by left.
    pose proof (column_min_le rest row Hrest) as Hmin.
    pose proof (column_max_ge rest row Hrest) as Hmax.
    split; [rewrite (scale_length _ _ row) by auto; by apply Hlen|].
    split.
    { apply (scale_constant_column _ _ row); [by apply Hmin|by apply Hmax| |done].
      rewrite (Hlen row Hrow). lia. }
    split; [done|].
    intros r Hr. rewrite Hsc, <- Hfit in Hr.
    apply list_elem_of_fmap in Hr as (x & -> & Hx).
    unfold transform_row; simpl. split.
    + rewrite scaled_length; [by apply Hlen|by apply Hmin|by apply Hmax].
    + eapply scaled_constant_column; [by apply Hmin|by apply Hmax|exact Heq].
  - intros x y Hn%row_norm_zero. destruct (normalize_row_zero _ Hn) as [Hh Hz].
    split; [done|].
    split; [apply normalize_row_checked_normalize|]. split; [done|].
    split; [unfold normalize_row; apply length_map|]. split; [done|].
    split; [by apply dot_zero_l|by apply dot_zero_r].
  - intros self idx Hn%row_norm_zero.
    unfold seed_similarities. rewrite cosine_similarity_row.
    split; [apply length_map|].
    apply Forall_fmap, Forall_forall. intros y _. simpl.
    symmetry. apply dot_zero_l. by apply normalize_row_zero.
Qed.

Lemma C6_degenerate_input_is_neutral_witness :
  (length (scale_ (scaler engine_degenerate)) = 9%nat
   ∧ at_ 0 (scale_ (scaler engine_degenerate)) 2 == 1
   ∧ length (scaled_features engine_degenerate) = length (df engine_degenerate)
   ∧ ∀ r, r ∈ scaled_features engine_degenerate →
       length r = 9%nat ∧ at_ 0 r 2 == 0)
  ∧ length (seed_similarities engine_degenerate 1)
    = length (scaled_features engine_degenerate)
  ∧ Forall (Qeq 0) (seed_similarities engine_degenerate 1).
Proof.
  destruct C6_degenerate_input_is_neutral as (_ & _ & Hcolumn & _ & Hseed).
  split.
  - apply (Hcolumn csv_degenerate engine_degenerate 2%nat);
      [vm_compute; reflexivity|lia|vm_compute; reflexivity].
  - apply (Hseed engine_degenerate 1%nat). vm_compute. repeat constructor.
Defined.

Example constant_column_scales_to_zero :
  map (fun r => Qred (at_ 0 r 2))
      (transform scaler_constant_column matrix_constant_column) = [0; 0; 0].
Proof. vm_compute. reflexivity. Qed.

(** ** Unknown seeds and moods *)

(** C7: an identifier that is not in the catalog and a mood whose lowercased
    name is not one of the presets both give the empty result. *)
Theorem C7_unknown_lookups_give_empty (self : MusicRecommender) (k : nat) :
  (∀ id exclude_same_artist,
     id ∉ map track_id (df self) →
     get_recommendations self id k exclude_same_artist = [])
  ∧ (∀ mood,
       lower mood ∉ mood_names →
       get_mood_based_recommendations self mood k = []).
Proof.
  split.
  - intros id ex Hid. unfold get_recommendations, first_index.
    apply (first_index_from_None _ _ 0) in Hid. by rewrite Hid.
  - intros mood Hmood. unfold get_mood_based_recommendations.
    assert (Hnone : mood_presets !! lower mood = None).
    { unfold mood_presets. apply not_elem_of_list_to_map_1. exact Hmood. }
    by rewrite Hnone.
Qed.

Lemma C7_unknown_lookups_give_empty_witness :
  get_recommendations engine3 "Z" 5 false = []
  ∧ get_mood_based_recommendations engine3 "euphoric" 5 = [].
Proof.
  destruct (C7_unknown_lookups_give_empty engine3 5) as [Hseed Hmood].
  split.
  - apply Hseed. vm_compute. intros H. repeat (apply elem_of_cons in H as [H|H]; [discriminate H|]).
    by apply elem_of_nil in H.
  - apply Hmood. vm_compute. intros H. repeat (apply elem_of_cons in H as [H|H]; [discriminate H|]).
    by apply elem_of_nil in H.
Defined.

Example mood_lookup_ignores_case :
  is_Some (mood_presets !! lower "HaPPy") ∧ mood_presets !! lower "euphoric" = None.
Proof. split; [eexists|]; vm_compute; reflexivity. Qed.

(** ** The query vector *)

(** C8: the query vector has one value per feature, in the order of
    [AUDIO_FEATURES]: the mapping's value where the field is present, the
    documented default where it is absent; the similarities are computed on
    that vector, scaled. *)
Theorem C8_query_vector_defaults (self : MusicRecommender)
    (features_dict : gmap string Q) :
  feature_vector features_dict = map (query_value features_dict) AUDIO_FEATURES
  ∧ (∀ j name, AUDIO_FEATURES !! j = Some name →
       feature_vector features_dict !! j = Some (query_value features_dict name))
  ∧ vector_similarities self features_dict
    = at_ [] (cosine_similarity
                [transform_row (scaler self) (feature_vector features_dict)]
                (scaled_features self)) 0.
Proof.
  assert (H : feature_vector features_dict
              = map (query_value features_dict) AUDIO_FEATURES).
  { unfold feature_vector, AUDIO_FEATURES, query_value, get. simpl.
    repeat f_equal. }
  split; [exact H|]. split; [|reflexivity].
  intros j name Hj. rewrite H.
  change (map ?f ?l) with (f <$> l). by rewrite list_lookup_fmap, Hj.
Qed.

(** ** The length of a result *)

Section LengthFacts.

Variable self : MusicRecommender.

(** Same artist kept: the result has [k] rows, or all the rows of the
    catalog when there are fewer. *)
Lemma get_recommendations_plain_length (id : string) (idx k : nat) :
  first_index (df self) id = Some idx →
  length (seed_similarities self idx) = length (df self) →
  length (get_recommendations self id k false) = Nat.min k (length (df self)).
Proof.
  intros Hidx Hlen. unfold get_recommendations. rewrite Hidx.
  unfold seed_ranking. rewrite build_length.
  - rewrite top_length. unfold set_at. by rewrite length_insert, Hlen.
  - unfold take_at. by rewrite length_map.
Qed.

(** Same artist excluded: the result has [k] rows, or all the rows left by
    the mask when there are fewer. *)
Lemma get_recommendations_exclude_length (id : string) (idx k : nat) :
  first_index (df self) id = Some idx →
  length (get_recommendations self id k true)
  = Nat.min k (length (where_ (set_at
      (map (fun t => cell_ne (artists t) (artists (iloc (df self) idx))) (df self))
      idx false))).
Proof.
  intros Hidx. unfold get_recommendations. rewrite Hidx.
  unfold seed_ranking. rewrite build_length.
  - unfold take_idx, take_at. by rewrite length_map, top_length, length_map.
  - unfold take_idx, take_at. by rewrite !length_map.
Qed.

End LengthFacts.

Section CountFacts.

Lemma where_from_length {A} (f : A → bool) (l : list A) (s : nat) :
  length (where_from s (map f l)) = length (List.filter f l).
Proof.
  revert s; induction l as [|x l IH]; intros s; simpl; [done|].
  destruct (f x); simpl; by rewrite IH.
Qed.

Lemma filter_split_length {A} (f : A → bool) (l : list A) :
  (length (List.filter f l) + length (List.filter (fun x => negb (f x)) l))%nat
  = length l.
Proof.
  induction l as [|x l IH]; simpl; [done|].
  destruct (f x); simpl; lia.
Qed.

Lemma filter_ext_in {A} (f g : A → bool) (l : list A) :
  (∀ x, x ∈ l → f x = g x) → List.filter f l = List.filter g l.
Proof.
  induction l as [|x l IH]; intros H; simpl; [done|].
  rewrite (H x) by left. rewrite IH; [done|].
  intros y Hy. apply H. by right.
Qed.

Lemma cell_ne_filled (a b : option string) :
  is_Some a → is_Some b → negb (cell_ne a b) = bool_decide (a = b).
Proof.
  intros [x ->] [y ->]. simpl. rewrite negb_involutive.
  destruct (String.eqb x y) eqn:E.
  - apply String.eqb_eq in E as ->. by rewrite bool_decide_eq_true_2.
  - apply String.eqb_neq in E. rewrite bool_decide_eq_false_2; [done|congruence].
Qed.

(** The length of the result for a track of the catalog: without the
    exclusion [min k N]; with it [min k (N - 1 - same)]. *)
Lemma get_recommendations_length (csv : list RawRow) (self : MusicRecommender)
    (i : Track) (k : nat) :
  init csv = Some self → i ∈ df self →
  length (get_recommendations self (track_id i) k false)
  = Nat.min k (length (df self))
  ∧ length (get_recommendations self (track_id i) k true)
    = Nat.min k (length (df self) - 1 - same_attribution_count (df self) i).
Proof.
  intros Hinit Hi.
  pose proof (df_NoDup _ _ Hinit) as Hnd.
  destruct (first_index_of_track _ _ Hnd Hi) as (idx & Hfi & Hlt & Hil).
  split.
  - eapply get_recommendations_plain_length; [done|].
    by eapply seed_similarities_df_length.
  - rewrite (get_recommendations_exclude_length self _ idx) by done.
    f_equal. rewrite Hil.
    assert (Hfilled : ∀ t, t ∈ df self → is_Some (artists t)).
    { intros t Ht. destruct (init_Some _ _ Hinit) as (Hdf & _).
      rewrite Hdf in Ht. by apply load_full_dataset_filled in Ht as [? _]. }
    pose (f := fun t : Track => cell_ne (artists t) (artists i)).
    change (length (where_ (set_at (map f (df self)) idx false))
            = (length (df self) - 1 - same_attribution_count (df self) i)%nat).
    assert (Hfi' : f i = false).
    { unfold f. destruct (Hfilled i Hi) as [x ->]. simpl.
      by rewrite String.eqb_refl. }
    assert (Hmask : set_at (map f (df self)) idx false = map f (df self)).
    { unfold set_at. apply list_insert_id.
      change (map f (df self)) with (f <$> df self).
      rewrite list_lookup_fmap.
      destruct (lookup_lt_is_Some_2 (df self) idx Hlt) as [t Ht].
      rewrite Ht. simpl. f_equal.
      unfold iloc in Hil. rewrite (at_lookup _ _ _ _ Ht) in Hil. by subst t. }
    rewrite Hmask. unfold where_. rewrite where_from_length.
    unfold same_attribution_count.
    rewrite <- (filter_ext_in (fun t => negb (f t))
                              (fun t => bool_decide (artists t = artists i))).
    2: { intros t Ht. apply cell_ne_filled; auto. }
    pose proof (filter_split_length f (df self)) as Hsplit.
    assert (Hpos : (1 <= length (List.filter (fun t => negb (f t)) (df self)))%nat).
    { assert (Hin : In i (List.filter (fun t => negb (f t)) (df self))).
      { apply filter_In. split; [by apply list_elem_of_In|by rewrite Hfi']. }
      apply in_split in Hin as (l1 & l2 & ->). rewrite length_app. simpl. lia. }
    change Track with (Row Q) in *.
    generalize dependent (length (List.filter (fun t => negb (f t)) (df self))).
    intros b Hsplit Hpos. lia.
Qed.

End CountFacts.

(** C5 at a catalog of three tracks, five recommendations asked for seed A,
    same artist kept: the result has three rows, the seed among them with
    the score -100, where min(K, catalog size - 1) is 2. *)
Theorem C5_seed_returned_when_k_reaches_catalog_size :
  length (df engine3) = 3%nat
  ∧ length (get_recommendations engine3 "A" 5 false) = 3%nat
  ∧ map (fun r => (track_id (track r), Qred (similarity_score r)))
        (get_recommendations engine3 "A" 5 false)
    = [("C"%string, 100); ("B"%string, 0); ("A"%string, -100)]
  ∧ Nat.min 5 (length (df engine3) - 1) = 2%nat.
Proof. repeat split; vm_compute; reflexivity. Qed.

(** ** Search *)

Section SearchFacts.

Lemma is_special_false (c : ascii) :
  is_special c = false →
  Ascii.eqb c "|" = false ∧ Ascii.eqb c "." = false.
Proof.
  destruct c as [[] [] [] [] [] [] [] []]; vm_compute; intros H;
    first [discriminate H | repeat split].
Qed.

Lemma plain_text_cons (c : ascii) (q : string) :
  plain_text (String c q) = true
  ↔ is_special c = false ∧ opens_count c q = false ∧ plain_text q = true.
Proof.
  simpl. rewrite !andb_true_iff, !negb_true_iff. tauto.
Qed.

(** A text without special characters compiles to itself. *)
Lemma compile_plain_text (q : string) :
  plain_text q = true → compile q = Some [literal q].
Proof.
  induction q as [|c q IH]; [done|].
  intros (Hc & Ho & Hq)%plain_text_cons. simpl.
  rewrite (IH Hq). destruct (is_special_false c Hc) as (-> & ->).
  by rewrite Hc, Ho.
Qed.

Lemma match_here_literal (q s : string) :
  match_here (literal q) s = true ↔ ∃ post, s = (q ++ post)%string.
Proof.
  revert s; induction q as [|c q IH]; intros s; simpl.
  - split; [intros _; by exists s|done].
  - destruct s as [|c' s]; simpl.
    + split; [done|]. intros [post H]. discriminate H.
    + rewrite andb_true_iff, IH. split.
      * intros [Hc [post ->]]. apply Ascii.eqb_eq in Hc as ->. by exists post.
      * intros [post [= -> ->]]. split; [apply Ascii.eqb_refl|by exists post].
Qed.

(** Searching for a literal pattern is looking for a substring. *)
Lemma search_literal (q s : string) :
  search_at_any (literal q) s = true ↔ is_substring q s.
Proof.
  induction s as [|c s IH]; simpl.
  - rewrite orb_false_r, match_here_literal. split.
    + intros [post H]. by exists EmptyString, post.
    + intros (pre & post & H). destruct pre; [by exists post|discriminate H].
  - rewrite orb_true_iff.
    change (match literal q with
            | [] => true
            | a :: more => atom_matches a c && match_here more s
            end) with (match_here (literal q) (String c s)).
    rewrite match_here_literal, IH. split.
    + intros [[post H]|(pre & post & H)].
      * by exists EmptyString, post.
      * exists (String c pre), post. simpl. by rewrite H.
    + intros (pre & post & H). destruct pre as [|c' pre]; simpl in H.
      * left. by exists post.
      * right. injection H as _ H. by exists pre, post.
Qed.

Lemma str_contains_literal (str_lower : string → string) (q : string)
    (cell : option string) :
  str_contains [literal q] (str_lower_with str_lower cell) = true
  ↔ cell_has_substring_with str_lower q cell.
Proof.
  destruct cell as [s|]; simpl.
  - rewrite orb_false_r, search_literal. split.
    + intros H. by exists s.
    + by intros (s' & [= <-] & H).
  - split; [done|]. by intros (s' & [=] & _).
Qed.

(** The empty pattern is found in every string. *)
Lemma search_empty (s : string) : re_search [[]] s = true.
Proof. destruct s; reflexivity. Qed.

Lemma filter_all {A} (f : A → bool) (l : list A) :
  (∀ x, x ∈ l → f x = true) → List.filter f l = l.
Proof.
  induction l as [|x l IH]; intros H; simpl; [done|].
  rewrite (H x) by left. f_equal. apply IH. intros y Hy. apply H. by right.
Qed.

End SearchFacts.




Example search_finds_alpha :
  option_map (map track_id) (search_tracks engine3 "ALP") = Some ["A"%string].
Proof. vm_compute. reflexivity. Qed.

(** A closing brace or bracket, and an opening brace that no closing brace
    follows, stand for themselves. *)
Example lone_braces_are_plain_text :
  plain_text "a}b]c{d" = true
  ∧ compile "a}b]c{d" = Some [literal "a}b]c{d"]
  ∧ plain_text "a{1}" = false
  ∧ search_tracks engine3 "}" = Some [].
Proof. vm_compute. repeat split. Qed.

(** C10: on a loaded catalog the empty query returns every track, in
    catalog order: no name or artist is NaN, and the empty pattern is found
    in every string. *)
Theorem C10_empty_query_returns_catalog (csv : list RawRow)
    (self : MusicRecommender) :
  init csv = Some self →
  search_tracks self "" = Some (df self).
Proof.
  intros Hinit. unfold search_tracks, search_tracks_with.
  change (compile (lower EmptyString)) with (Some [[] : list atom]).
  cbv beta iota. f_equal.
  apply filter_all. intros t Ht.
  destruct (init_Some _ _ Hinit) as (Hdf & _). rewrite Hdf in Ht.
  destruct (load_full_dataset_filled _ _ Ht) as [_ [n Hn]].
  rewrite Hn. unfold str_lower_with, str_contains at 1.
  by rewrite search_empty.
Qed.

Lemma C10_empty_query_returns_catalog_witness :
  search_tracks engine3 "" = Some (df engine3).
Proof.
  apply (C10_empty_query_returns_catalog csv3 engine3).
  vm_compute. reflexivity.
Defined.

(** * Further properties *)

Import App.

(** ** The loader: which rows are kept, in which order *)

Section CatalogFacts.

Lemma drop_duplicates_from_first (seen : list string) (csv : list RawRow) (t : Track) :
  t ∈ drop_duplicates_from seen (map load_row csv) →
  ∃ pre r post, csv = pre ++ r :: post ∧ t = load_row r
                ∧ ∀ r', r' ∈ pre → row_id r' ≠ track_id t.
Proof.
  revert seen; induction csv as [|x csv IH]; intros seen; simpl.
  - intros H. by apply elem_of_nil in H.
  - case_bool_decide as Hx.
    + intros H. pose proof (drop_duplicates_from_sub _ _ _ H) as [_ Hseen].
      apply IH in H as (pre & r & post & -> & -> & Hpre).
      exists (x :: pre), r, post. split; [done|split; [done|]].
      intros r' [->|Hr']%elem_of_cons; [|by apply Hpre].
      intros Heq. apply Hseen. unfold row_id in Heq. by rewrite <- Heq.
    + rewrite elem_of_cons. intros [->|H].
      * exists [], x, csv. split; [done|split; [done|]].
        intros r' Hr'. by apply elem_of_nil in Hr'.
      * pose proof (drop_duplicates_from_sub _ _ _ H) as [_ Hseen].
        apply IH in H as (pre & r & post & -> & -> & Hpre).
        exists (x :: pre), r, post. split; [done|split; [done|]].
        intros r' [->|Hr']%elem_of_cons; [|by apply Hpre].
        intros Heq. apply Hseen. unfold row_id in Heq. rewrite <- Heq. left.
Qed.

Lemma drop_duplicates_from_sublist {A} (seen : list string) (l : list (Row A)) :
  sublist (drop_duplicates_from seen l) l.
Proof.
  revert seen; induction l as [|x l IH]; intros seen; simpl; [constructor|].
  case_bool_decide; [apply sublist_cons|apply sublist_skip]; apply IH.
Qed.

Lemma drop_duplicates_from_id {A} (seen : list string) (l : list (Row A)) :
  NoDup (map track_id l) →
  (∀ x, x ∈ l → track_id x ∉ seen) →
  drop_duplicates_from seen l = l.
Proof.
  revert seen; induction l as [|x l IH]; intros seen Hnd Hseen; simpl; [done|].
  apply NoDup_cons in Hnd as [Hx Hnd].
  rewrite bool_decide_eq_false_2 by (apply Hseen; left).
  f_equal. apply IH; [done|].
  intros y Hy. rewrite not_elem_of_cons. split; [|apply Hseen; by right].
  intros Heq. apply Hx. rewrite <- Heq. apply list_elem_of_fmap. eauto.
Qed.

End CatalogFacts.

(** X1: the identifiers of the catalog are pairwise distinct, and the track
    kept for an identifier comes from the first row of the file that has
    it. *)
Theorem X1_first_row_of_each_id_is_kept (csv : list RawRow) :
  NoDup (map track_id (load_full_dataset csv))
  ∧ ∀ t, t ∈ load_full_dataset csv →
      ∃ pre r post, csv = pre ++ r :: post ∧ t = load_row r
                    ∧ ∀ r', r' ∈ pre → row_id r' ≠ track_id t.
Proof.
  split; [apply load_full_dataset_NoDup|].
  intros t Ht. rewrite load_full_dataset_eq in Ht.
  by apply drop_duplicates_from_first in Ht.
Qed.

Lemma catalog_metadata (csv : list RawRow) (t : Track) :
  t ∈ load_full_dataset csv →
  ∃ r, r ∈ csv
       ∧ track_id t = row_id r
       ∧ artists t = Some (default "Unknown Artist"%string (r_artists r))
       ∧ album_name t = Some (default "Unknown Album"%string (r_album_name r))
       ∧ track_name t = Some (default "Unknown Track"%string (r_track_name r))
       ∧ genre t = Some (default "unknown"%string (r_track_genre r))
       ∧ popularity t = r_popularity r.
Proof.
  intros Ht. rewrite load_full_dataset_eq in Ht.
  apply drop_duplicates_from_sub in Ht as [Ht _].
  apply list_elem_of_fmap in Ht as (r & -> & Hr).
  exists r. split; [done|]. simpl.
  destruct (r_artists r), (r_album_name r), (r_track_name r), (r_track_genre r);
    repeat split.
Qed.

Lemma catalog_length_le (csv : list RawRow) :
  (length (load_full_dataset csv) <= length csv)%nat.
Proof.
  rewrite load_full_dataset_eq, <- (length_map load_row csv).
  apply sublist_length, drop_duplicates_from_sublist.
Qed.

(** X2: no cell of the artist, album, name and genre columns of the catalog
    is NaN: each is the cell of the file, or the sentinel of its column where
    the file has none; the popularity is the file's. *)
Theorem X2_missing_metadata_reads_as_sentinel (csv : list RawRow) (t : Track) :
  t ∈ load_full_dataset csv →
  ∃ r, r ∈ csv
       ∧ track_id t = row_id r
       ∧ artists t = Some (default "Unknown Artist"%string (r_artists r))
       ∧ album_name t = Some (default "Unknown Album"%string (r_album_name r))
       ∧ track_name t = Some (default "Unknown Track"%string (r_track_name r))
       ∧ genre t = Some (default "unknown"%string (r_track_genre r))
       ∧ popularity t = r_popularity r.
Proof. apply catalog_metadata. Qed.

Lemma X2_missing_metadata_reads_as_sentinel_witness :
  ∃ r, r ∈ csv_mixed
       ∧ track_id (iloc (df engine_mixed) 2) = row_id r
       ∧ artists (iloc (df engine_mixed) 2)
         = Some (default "Unknown Artist"%string (r_artists r))
       ∧ album_name (iloc (df engine_mixed) 2)
         = Some (default "Unknown Album"%string (r_album_name r))
       ∧ track_name (iloc (df engine_mixed) 2)
         = Some (default "Unknown Track"%string (r_track_name r))
       ∧ genre (iloc (df engine_mixed) 2)
         = Some (default "unknown"%string (r_track_genre r))
       ∧ popularity (iloc (df engine_mixed) 2) = r_popularity r.
Proof.
  apply (X2_missing_metadata_reads_as_sentinel csv_mixed).
  vm_compute. right; right; left.
Defined.

(** X3: the catalog lists its tracks in the order of the file; a file whose
    identifiers are pairwise distinct is loaded row for row. *)
Theorem X3_catalog_in_file_order (csv : list RawRow) :
  sublist (load_full_dataset csv) (map load_row csv)
  ∧ (length (load_full_dataset csv) <= length csv)%nat
  ∧ (NoDup (map row_id csv) → load_full_dataset csv = map load_row csv).
Proof.
  split; [|split; [apply catalog_length_le|]]; rewrite load_full_dataset_eq.
  - apply drop_duplicates_from_sublist.
  - intros Hnd. apply drop_duplicates_from_id.
    + by rewrite map_map.
    + intros x _. apply not_elem_of_nil.
Qed.

(** ** The cache *)

(** X4: once a call has loaded the file, every later call returns that
    frame, whatever the file holds by then: from an empty cache a run of
    calls returns the frame of the first file each time, and from a filled
    cache the cached frame. *)
Theorem X4_later_calls_return_first_frame (files : list (list RawRow)) :
  (∀ df, load_sequence (Some df) files
         = (replicate (length files) df, Some df))
  ∧ (∀ csv, load_sequence None (csv :: files)
            = (replicate (S (length files)) (load_full_dataset csv),
               Some (load_full_dataset csv))).
Proof.
  assert (H : ∀ df, load_sequence (Some df) files
                    = (replicate (length files) df, Some df)).
  { induction files as [|csv files IH]; intros df; simpl; [done|].
    by rewrite IH. }
  split; [exact H|]. intros csv. simpl. by rewrite H.
Qed.

(** ** The statistics *)

Section UniqueFacts.

Context {A : Type} `{EqDecision A}.

Lemma unique_from_spec (seen l : list A) (x : A) :
  x ∈ unique_from seen l ↔ x ∈ l ∧ x ∉ seen.
Proof.
  revert seen; induction l as [|y l IH]; intros seen; simpl.
  - rewrite elem_of_nil. tauto.
  - case_bool_decide as Hy; rewrite ?elem_of_cons, IH, ?not_elem_of_cons, ?elem_of_cons.
    + split; [tauto|]. intros [[->|H] Hn]; [done|tauto].
    + split.
      * intros [->|[H [Hne Hn]]]; tauto.
      * intros [[->|H] Hn]; [by left|].
        destruct (decide (x = y)) as [->|Hne]; [by left|right; tauto].
Qed.

Lemma unique_from_NoDup (seen l : list A) : NoDup (unique_from seen l).
Proof.
  revert seen; induction l as [|y l IH]; intros seen; simpl; [constructor|].
  case_bool_decide; [apply IH|]. constructor; [|apply IH].
  rewrite unique_from_spec, not_elem_of_cons. tauto.
Qed.

Lemma unique_from_length (seen l : list A) :
  (length (unique_from seen l) <= length l)%nat.
Proof.
  revert seen; induction l as [|y l IH]; intros seen; simpl; [done|].
  case_bool_decide; [specialize (IH seen)|specialize (IH (y :: seen))]; simpl; lia.
Qed.

Lemma elem_of_unique (l : list A) (x : A) : x ∈ unique l ↔ x ∈ l.
Proof.
  unfold unique. rewrite unique_from_spec.
  split; [tauto|]. intros H. split; [done|apply not_elem_of_nil].
Qed.

End UniqueFacts.

Lemma dropna_cells_length (col : list (option string)) :
  (length (dropna_cells col) <= length col)%nat.
Proof.
  induction col as [|[s|] col IH]; simpl; [done|simpl in IH; lia|].
  unfold dropna_cells in *. simpl. lia.
Qed.

Lemma nunique_le (col : list (option string)) : (nunique col <= length col)%nat.
Proof.
  unfold nunique. etransitivity; [apply unique_from_length|apply dropna_cells_length].
Qed.

Lemma nunique_pos (col : list (option string)) (s : string) :
  Some s ∈ col → (1 <= nunique col)%nat.
Proof.
  intros Hs. unfold nunique.
  assert (Hin : s ∈ unique (dropna_cells col)).
  { apply elem_of_unique. unfold dropna_cells. apply list_elem_of_omap.
    exists (Some s). done. }
  destruct (unique (dropna_cells col)); [by apply elem_of_nil in Hin|simpl; lia].
Qed.

(** X5: the statistics of a first call count the tracks of the catalog, at
    most one per row of the file; there are at most as many genres and as
    many artists as tracks, at least one of each when the catalog is not
    empty, and nine audio features; the call fills the cache. *)
Theorem X5_dataset_stats_bounds (csv : list RawRow) :
  let stats := (get_dataset_stats None csv).1 in
  (get_dataset_stats None csv).2 = Some (load_full_dataset csv)
  ∧ total_tracks stats = length (load_full_dataset csv)
  ∧ (total_tracks stats <= length csv)%nat
  ∧ (total_genres stats <= total_tracks stats)%nat
  ∧ (total_artists stats <= total_tracks stats)%nat
  ∧ ((1 <= total_tracks stats)%nat →
     (1 <= total_genres stats)%nat ∧ (1 <= total_artists stats)%nat)
  ∧ audio_features stats = 9%nat.
Proof.
  cbn. repeat split.
  - apply catalog_length_le.
  - etransitivity; [apply nunique_le|]. by rewrite length_map.
  - etransitivity; [apply nunique_le|]. by rewrite length_map.
  - destruct (load_full_dataset csv) as [|t l] eqn:E; [simpl in H; lia|].
    assert (Ht : t ∈ load_full_dataset csv) by (rewrite E; left).
    apply catalog_metadata in Ht as (r & _ & _ & _ & _ & _ & Hg & _).
    eapply nunique_pos. apply list_elem_of_fmap. exists t. split; [done|left].
  - destruct (load_full_dataset csv) as [|t l] eqn:E; [simpl in H; lia|].
    assert (Ht : t ∈ load_full_dataset csv) by (rewrite E; left).
    apply catalog_metadata in Ht as (r & _ & _ & Ha & _).
    eapply nunique_pos. apply list_elem_of_fmap. exists t. split; [done|left].
Qed.

(** ** Lookups by identifier *)

Section LookupFacts.

Lemma head_filter_find {A} (p : A → bool) (l : list A) :
  match List.filter p l with x :: _ => Some x | [] => None end = find p l.
Proof.
  induction l as [|x l IH]; simpl; [done|]. by destruct (p x).
Qed.

Lemma get_track_by_id_find (self : MusicRecommender) (id : string) :
  get_track_by_id self id
  = find (fun t => String.eqb (track_id t) id) (df self).
Proof. apply head_filter_find. Qed.

Lemma NoDup_key_inj {A B} (f : A → B) (l : list A) (x y : A) :
  NoDup (map f l) → x ∈ l → y ∈ l → f x = f y → x = y.
Proof.
  induction l as [|z l IH]; simpl; intros Hnd Hx Hy Heq.
  - by apply elem_of_nil in Hx.
  - apply NoDup_cons in Hnd as [Hz Hnd].
    apply elem_of_cons in Hx as [->|Hx]; apply elem_of_cons in Hy as [->|Hy].
    + done.
    + exfalso. apply Hz. rewrite Heq. apply list_elem_of_fmap. eauto.
    + exfalso. apply Hz. rewrite <- Heq. apply list_elem_of_fmap. eauto.
    + by apply IH.
Qed.

Lemma get_track_by_id_Some (self : MusicRecommender) (id : string) (t : Track) :
  get_track_by_id self id = Some t → t ∈ df self ∧ track_id t = id.
Proof.
  rewrite get_track_by_id_find. intros H. apply find_some in H as [Hin Heq].
  split; [by apply list_elem_of_In|by apply String.eqb_eq].
Qed.

Lemma get_track_by_id_None (self : MusicRecommender) (id : string) :
  get_track_by_id self id = None ↔ id ∉ map track_id (df self).
Proof.
  rewrite get_track_by_id_find. split.
  - intros H (t & -> & Ht)%list_elem_of_fmap.
    apply list_elem_of_In in Ht. apply (find_none _ _ H) in Ht.
    by rewrite String.eqb_refl in Ht.
  - intros H. destruct (find _ _) as [t|] eqn:E; [|done].
    apply find_some in E as [Hin Heq]. apply String.eqb_eq in Heq.
    exfalso. apply H. rewrite <- Heq. apply list_elem_of_fmap.
    exists t. split; [done|by apply list_elem_of_In].
Qed.

Lemma get_track_by_id_of_track (csv : list RawRow) (self : MusicRecommender)
    (t : Track) :
  init csv = Some self → t ∈ df self → get_track_by_id self (track_id t) = Some t.
Proof.
  intros Hinit Ht. destruct (get_track_by_id self (track_id t)) as [u|] eqn:E.
  - apply get_track_by_id_Some in E as [Hu Heq]. f_equal.
    eapply NoDup_key_inj; [exact (df_NoDup _ _ Hinit)|done..].
  - apply get_track_by_id_None in E. exfalso. apply E.
    apply list_elem_of_fmap. eauto.
Qed.

Lemma init_feature_columns (csv : list RawRow) (self : MusicRecommender) :
  init csv = Some self → feature_columns self = AUDIO_FEATURES.
Proof.
  unfold init. destruct (fit _); [|done]. by intros [= <-].
Qed.

Lemma feature_vector_of_dict (f : Features Q) :
  feature_vector (features_to_dict AUDIO_FEATURES f) = to_list f.
Proof. destruct f. vm_compute. reflexivity. Qed.

End LookupFacts.

(** X6: looking a track of the catalog up by its identifier gives that
    track back; a lookup gives a track of the catalog with the identifier
    asked for, and nothing exactly when no track has it. *)
Theorem X6_lookup_by_id_round_trip (csv : list RawRow) (self : MusicRecommender) :
  init csv = Some self →
  (∀ t, t ∈ df self → get_track_by_id self (track_id t) = Some t)
  ∧ (∀ id t, get_track_by_id self id = Some t → t ∈ df self ∧ track_id t = id)
  ∧ (∀ id, get_track_by_id self id = None ↔ id ∉ map track_id (df self)).
Proof.
  intros Hinit. split; [|split].
  - intros t. by apply (get_track_by_id_of_track csv).
  - apply get_track_by_id_Some.
  - apply get_track_by_id_None.
Qed.

Lemma X6_lookup_by_id_round_trip_witness :
  (∀ t, t ∈ df engine_mixed → get_track_by_id engine_mixed (track_id t) = Some t)
  ∧ (∀ id t, get_track_by_id engine_mixed id = Some t →
             t ∈ df engine_mixed ∧ track_id t = id)
  ∧ (∀ id, get_track_by_id engine_mixed id = None
           ↔ id ∉ map track_id (df engine_mixed)).
Proof.
  apply (X6_lookup_by_id_round_trip csv_mixed engine_mixed).
  vm_compute. reflexivity.
Defined.

(** X7: the features read for a track of the catalog, passed as the mapping
    of a query by features, give back the nine features of the track in the
    order of the columns, no default used; and the lookup has the features of
    the track found by [get_track_by_id]. *)
Theorem X7_track_features_feed_vector_query (csv : list RawRow)
    (self : MusicRecommender) (t : Track) :
  init csv = Some self → t ∈ df self →
  ∃ features,
    get_track_features self (track_id t) = Some features
    ∧ feature_vector features = to_list (audio t)
    ∧ ∀ name, is_Some (features !! name) ↔ name ∈ AUDIO_FEATURES.
Proof.
  intros Hinit Ht.
  pose proof (get_track_by_id_of_track _ _ _ Hinit Ht) as Hby.
  unfold get_track_by_id in Hby. unfold get_track_features.
  destruct (rows_with_id (df self) (track_id t)) as [|u rest]; [done|].
  injection Hby as ->. rewrite (init_feature_columns _ _ Hinit).
  eexists. split; [reflexivity|]. split; [apply feature_vector_of_dict|].
  intros name. destruct (audio t) as [a b c d e g h i j].
  unfold features_to_dict, AUDIO_FEATURES. cbn [omap list_omap feature_of String.eqb Ascii.eqb Bool.eqb].
  rewrite <- elem_of_dom. rewrite dom_list_to_map_L. cbn [fmap list_fmap fst].
  rewrite elem_of_list_to_set. done.
Qed.

Lemma X7_track_features_feed_vector_query_witness :
  ∃ features,
    get_track_features engine_mixed (track_id (iloc (df engine_mixed) 1))
    = Some features
    ∧ feature_vector features = to_list (audio (iloc (df engine_mixed) 1))
    ∧ ∀ name, is_Some (features !! name) ↔ name ∈ AUDIO_FEATURES.
Proof.
  apply (X7_track_features_feed_vector_query csv_mixed engine_mixed).
  - vm_compute. reflexivity.
  - vm_compute. right; left.
Defined.

(** ** The most popular tracks *)

Section NlargestFacts.

Context {A : Type} (key : A → Z).

Lemma elem_of_insert_desc (x y : A) (l : list A) :
  y ∈ insert_desc key x l ↔ y = x ∨ y ∈ l.
Proof.
  induction l as [|z l IH]; simpl.
  - rewrite list_elem_of_singleton, elem_of_nil. tauto.
  - destruct (key z <? key x)%Z; rewrite !elem_of_cons; [tauto|].
    rewrite IH. tauto.
Qed.

Lemma insert_desc_perm (x : A) (l : list A) :
  Permutation (insert_desc key x l) (x :: l).
Proof.
  induction l as [|z l IH]; simpl; [done|].
  destruct (key z <? key x)%Z; [done|]. rewrite IH. apply perm_swap.
Qed.

Lemma insert_desc_sorted (x : A) (l : list A) :
  StronglySorted (fun a b => (key b <= key a)%Z) l →
  StronglySorted (fun a b => (key b <= key a)%Z) (insert_desc key x l).
Proof.
  induction l as [|z l IH]; simpl; intros Hs; [repeat constructor|].
  apply StronglySorted_cons in Hs as [Hz Hs].
  destruct (key z <? key x)%Z eqn:E.
  - apply Z.ltb_lt in E. constructor; [by constructor|].
    constructor; [lia|]. eapply Forall_impl; [exact Hz|]. simpl. lia.
  - apply Z.ltb_ge in E. constructor; [by apply IH|].
    apply Forall_forall. intros y [->|Hy]%elem_of_insert_desc; [done|].
    by eapply Forall_forall in Hz.
Qed.

Lemma filter_key_below (v : Z) (l : list A) :
  Forall (fun z => (key z < v)%Z) l → List.filter (has_key key v) l = [].
Proof.
  induction 1 as [|z l Hz Hl IH]; simpl; [done|].
  assert (Ez : has_key key v z = false) by (apply Z.eqb_neq; lia).
  by rewrite Ez.
Qed.

(** Inserting a row leaves the rows of every popularity in the order they
    had, the new row after those of its own popularity. *)
Lemma insert_desc_filter (v : Z) (x : A) (l : list A) :
  StronglySorted (fun a b => (key b <= key a)%Z) l →
  List.filter (has_key key v) (insert_desc key x l)
  = List.filter (has_key key v) l ++ List.filter (has_key key v) [x].
Proof.
  induction l as [|z l IH]; simpl; intros Hs; [done|].
  apply StronglySorted_cons in Hs as [Hz Hs].
  destruct (key z <? key x)%Z eqn:E; simpl.
  - apply Z.ltb_lt in E.
    destruct (has_key key v x) eqn:Ex; [|by rewrite app_nil_r].
    apply Z.eqb_eq in Ex.
    assert (Ez : has_key key v z = false) by (apply Z.eqb_neq; lia).
    rewrite Ez, filter_key_below; [done|].
    eapply Forall_impl; [exact Hz|]. simpl. lia.
  - rewrite (IH Hs). simpl. by destruct (has_key key v z).
Qed.

Lemma sort_desc_spec (frame acc : list A) :
  StronglySorted (fun a b => (key b <= key a)%Z) acc →
  StronglySorted (fun a b => (key b <= key a)%Z) (sort_desc key frame acc)
  ∧ Permutation (sort_desc key frame acc) (acc ++ frame)
  ∧ ∀ v, List.filter (has_key key v) (sort_desc key frame acc)
         = List.filter (has_key key v) acc ++ List.filter (has_key key v) frame.
Proof.
  revert acc; induction frame as [|x frame IH]; intros acc Hs; simpl.
  - rewrite app_nil_r. split; [done|]. split; [done|]. intros v. by rewrite app_nil_r.
  - destruct (IH _ (insert_desc_sorted x acc Hs)) as (H1 & H2 & H3).
    split; [done|]. split.
    + rewrite H2, insert_desc_perm. simpl. apply Permutation_middle.
    + intros v. rewrite H3, insert_desc_filter by done.
      rewrite <- app_assoc. f_equal. simpl. by destruct (has_key key v x).
Qed.

Lemma filter_map_comm {B} (f : A → B) (p : B → bool) (l : list A) :
  List.filter p (map f l) = map f (List.filter (fun x => p (f x)) l).
Proof.
  induction l as [|x l IH]; simpl; [done|].
  destruct (p (f x)); simpl; by rewrite IH.
Qed.

(** The stable sort keeps what the sort of pandas promises. *)
Lemma sort_desc_sorts_descending :
  sorts_descending key (fun frame => sort_desc key frame []).
Proof.
  intros frame.
  destruct (sort_desc_spec frame [] (SSorted_nil _)) as (Hs & Hp & _).
  by split.
Qed.

(** The first [n] rows of a frame sorted by descending key. *)
Lemma head_of_sorted (n : nat) (sorted frame : list A) :
  Permutation sorted frame →
  StronglySorted (fun a b => (key b <= key a)%Z) sorted →
  length (firstn n sorted) = Nat.min n (length frame)
  ∧ StronglySorted (fun a b => (key b <= key a)%Z) (firstn n sorted)
  ∧ ∃ rest, Permutation (firstn n sorted ++ rest) frame
            ∧ ∀ x y, x ∈ firstn n sorted → y ∈ rest → (key y <= key x)%Z.
Proof.
  intros Hp Hs. split; [by rewrite length_firstn, Hp|].
  split; [by apply StronglySorted_firstn|].
  exists (skipn n sorted). rewrite firstn_skipn. split; [done|].
  intros x y Hx Hy. rewrite <- (firstn_skipn n sorted) in Hs.
  by apply (StronglySorted_app_1_elem_of _ _ _ _ _ Hs Hx Hy).
Qed.

(** [nlargest]: the rows with the largest keys, by descending key; when
    fewer rows than the frame has are asked for, rows of equal key come in
    frame order. *)
Lemma nlargest_spec (sort_values : list A → list A) (n : nat) (frame : list A) :
  sorts_descending key sort_values →
  length (nlargest sort_values key n frame) = Nat.min n (length frame)
  ∧ StronglySorted (fun a b => (key b <= key a)%Z)
                   (nlargest sort_values key n frame)
  ∧ (∃ rest, Permutation (nlargest sort_values key n frame ++ rest) frame
             ∧ ∀ x y, x ∈ nlargest sort_values key n frame → y ∈ rest →
                      (key y <= key x)%Z)
  ∧ ((n < length frame)%nat →
     ∀ v, prefix (List.filter (has_key key v) (nlargest sort_values key n frame))
                 (List.filter (has_key key v) frame)).
Proof.
  intros Hsort. unfold nlargest.
  change (fold_left _ frame []) with (sort_desc key frame []).
  destruct (sort_desc_spec frame [] (SSorted_nil _)) as (Hs & Hp & Hf).
  simpl in Hp, Hf.
  destruct (length frame <=? n)%nat eqn:E.
  - apply Nat.leb_le in E. destruct (Hsort frame) as [Hp' Hs'].
    destruct (head_of_sorted n _ _ Hp' Hs') as (H1 & H2 & H3).
    split; [done|]. split; [done|]. split; [done|]. lia.
  - destruct (head_of_sorted n _ _ Hp Hs) as (H1 & H2 & H3).
    split; [done|]. split; [done|]. split; [done|].
    intros _ v. rewrite <- Hf.
    exists (List.filter (has_key key v) (skipn n (sort_desc key frame []))).
    by rewrite <- List.filter_app, firstn_skipn.
Qed.

End NlargestFacts.

(** X8: whatever order the sort of pandas gives to rows of equal
    popularity, [get_popular_tracks] returns [n] tracks of the catalog, or
    all of them when there are fewer, by descending popularity, and every
    track left out is at most as popular as every track returned; when fewer
    tracks than the catalog has are asked for, the tracks of one popularity
    come in catalog order, the earliest of them first. *)
Theorem X8_popular_tracks_ranked (sort_values : list Track → list Track)
    (self : MusicRecommender) (n_tracks : nat) :
  sorts_descending popularity sort_values →
  let popular := get_popular_tracks sort_values self n_tracks in
  length popular = Nat.min n_tracks (length (df self))
  ∧ StronglySorted (fun a b => (info_popularity b <= info_popularity a)%Z) popular
  ∧ (∃ rest, Permutation (popular ++ rest) (get_all_tracks self)
             ∧ ∀ x y, x ∈ popular → y ∈ rest →
                 (info_popularity y <= info_popularity x)%Z)
  ∧ ((n_tracks < length (df self))%nat →
     ∀ v, prefix (List.filter (fun x => (info_popularity x =? v)%Z) popular)
                 (List.filter (fun x => (info_popularity x =? v)%Z)
                              (get_all_tracks self))).
Proof.
  intros Hsort. unfold get_popular_tracks, get_all_tracks.
  destruct (nlargest_spec popularity sort_values n_tracks (df self) Hsort)
    as (Hlen & Hs & (rest & Hp & Hle) & Hf).
  cbv zeta. split; [by rewrite length_map|]. split; [|split].
  - eapply StronglySorted_fmap; [|exact Hs]. by intros a b.
  - exists (map to_info rest). split.
    + by rewrite <- map_app, Hp.
    + intros x y (a & -> & Ha)%list_elem_of_fmap (b & -> & Hb)%list_elem_of_fmap.
      simpl. by apply Hle.
  - intros Hn v. rewrite !filter_map_comm. destruct (Hf Hn v) as [k Hk].
    exists (map to_info k).
    rewrite <- map_app. f_equal. exact Hk.
Qed.

Lemma X8_popular_tracks_ranked_witness :
  let sort_values := fun frame => sort_desc popularity frame [] in
  let popular := get_popular_tracks sort_values engine3 2 in
  length popular = Nat.min 2 (length (df engine3))
  ∧ StronglySorted (fun a b => (info_popularity b <= info_popularity a)%Z) popular
  ∧ (∃ rest, Permutation (popular ++ rest) (get_all_tracks engine3)
             ∧ ∀ x y, x ∈ popular → y ∈ rest →
                 (info_popularity y <= info_popularity x)%Z)
  ∧ ((2 < length (df engine3))%nat →
     ∀ v, prefix (List.filter (fun x => (info_popularity x =? v)%Z) popular)
                 (List.filter (fun x => (info_popularity x =? v)%Z)
                              (get_all_tracks engine3))).
Proof.
  apply (X8_popular_tracks_ranked (fun frame => sort_desc popularity frame [])
           engine3 2).
  apply sort_desc_sorts_descending.
Defined.

(** ** Tracks of a genre *)

Section GenreFacts.

(** Lowercasing ASCII text twice is lowercasing it once. *)
Lemma lower_ascii_idemp (c : ascii) : lower_ascii (lower_ascii c) = lower_ascii c.
Proof. destruct c as [[] [] [] [] [] [] [] []]; reflexivity. Qed.

Lemma lower_idemp (s : string) : lower (lower s) = lower s.
Proof. induction s as [|c s IH]; simpl; [done|]. by rewrite lower_ascii_idemp, IH. Qed.

Lemma list_filter_sublist {A} (p : A → bool) (l : list A) :
  sublist (List.filter p l) l.
Proof.
  induction l as [|x l IH]; simpl; [constructor|].
  destruct (p x); by constructor.
Qed.

Lemma cell_eq_true (cell : option string) (s : string) :
  cell_eq cell s = true ↔ cell = Some s.
Proof.
  destruct cell as [x|]; simpl; [|done].
  rewrite String.eqb_eq. split; congruence.
Qed.

End GenreFacts.

(** X9: whatever [str.lower] does, [get_tracks_by_genre] returns at most
    [n] tracks, in catalog order, each with exactly the lowercased name asked
    for as its genre, and all of them when the catalog has at most [n] of
    that genre; two names with the same lowercased form give the same
    result; a track whose genre is the lowercased form of no name is returned
    for no name, and, lowercasing being idempotent, a track whose genre is
    not its own lowercased form is such a track. *)
Theorem X9_genre_filter_lowercases_the_query_only (str_lower : string → string)
    (self : MusicRecommender) :
  (∀ genre_name n,
     let result := get_tracks_by_genre_with str_lower self genre_name n in
     (length result <= n)%nat
     ∧ sublist result (df self)
     ∧ (∀ t, t ∈ result → genre t = Some (str_lower genre_name))
     ∧ (∀ other, str_lower other = str_lower genre_name →
                 result = get_tracks_by_genre_with str_lower self other n)
     ∧ (∀ t, t ∈ df self → genre t = Some (str_lower genre_name) →
             (length (List.filter
                        (fun u => cell_eq (genre u) (str_lower genre_name))
                        (df self)) <= n)%nat →
             t ∈ result))
  ∧ (∀ t s, genre t = Some s → (∀ name, str_lower name ≠ s) →
            ∀ genre_name n,
              t ∉ get_tracks_by_genre_with str_lower self genre_name n)
  ∧ ((∀ s, str_lower (str_lower s) = str_lower s) →
     (∀ genre_name n,
        get_tracks_by_genre_with str_lower self genre_name n
        = get_tracks_by_genre_with str_lower self (str_lower genre_name) n)
     ∧ ∀ t s, genre t = Some s → str_lower s ≠ s →
              ∀ genre_name n,
                t ∉ get_tracks_by_genre_with str_lower self genre_name n).
Proof.
  assert (Hgenre : ∀ genre_name n t,
            t ∈ get_tracks_by_genre_with str_lower self genre_name n →
            genre t = Some (str_lower genre_name)).
  { intros g n t Ht. unfold get_tracks_by_genre_with in Ht.
    apply subseteq_take in Ht.
    apply list_elem_of_In, filter_In in Ht as [_ Ht]. by apply cell_eq_true. }
  split; [|split].
  - intros g n result. subst result. split; [|split; [|split; [|split]]].
    + unfold get_tracks_by_genre_with. rewrite length_firstn. lia.
    + unfold get_tracks_by_genre_with.
      etransitivity; [apply sublist_take|apply list_filter_sublist].
    + apply Hgenre.
    + intros other Hother. unfold get_tracks_by_genre_with. by rewrite Hother.
    + intros t Ht Hg Hlen. unfold get_tracks_by_genre_with.
      rewrite firstn_all2 by done.
      apply list_elem_of_In, filter_In. split; [by apply list_elem_of_In|].
      by apply cell_eq_true.
  - intros t s Hs Hno g n Ht. apply Hgenre in Ht.
    rewrite Hs in Ht. injection Ht as ->. by apply (Hno g).
  - intros Hidem. split.
    + intros g n. unfold get_tracks_by_genre_with. by rewrite Hidem.
    + intros t s Hs Hlow g n Ht. apply Hgenre in Ht.
      rewrite Hs in Ht. injection Ht as ->. apply Hlow, Hidem.
Qed.

(** On ASCII text: the name [ROCK] finds the track of genre [rock], and the
    track of genre [Rock] is found by neither name. *)
Example genre_name_is_lowercased :
  map genre (df engine_mixed)
  = [Some "rock"; Some "Rock"; Some "unknown"; Some "jazz"]%string
  ∧ map track_id (get_tracks_by_genre engine_mixed "ROCK" 5) = ["a"%string]
  ∧ map track_id (get_tracks_by_genre engine_mixed "Rock" 5) = ["a"%string].
Proof. vm_compute. repeat split. Qed.

(** ** The list of genres *)

Section StringOrderFacts.

Lemma ascii_compare_refl (c : ascii) : Ascii.compare c c = Eq.
Proof. unfold Ascii.compare. apply N.compare_refl. Qed.

Lemma ascii_compare_lt_trans (a b c : ascii) :
  Ascii.compare a b = Lt → Ascii.compare b c = Lt → Ascii.compare a c = Lt.
Proof.
  unfold Ascii.compare. rewrite !N.compare_lt_iff. apply N.lt_trans.
Qed.

Lemma string_compare_lt_trans (a b c : string) :
  String.compare a b = Lt → String.compare b c = Lt → String.compare a c = Lt.
Proof.
  revert b c; induction a as [|x a IH]; intros [|y b] [|z c]; simpl; try done.
  destruct (Ascii.compare x y) eqn:E1; destruct (Ascii.compare y z) eqn:E2;
    try done; intros H1 H2.
  - apply Ascii.compare_eq_iff in E1 as ->. apply Ascii.compare_eq_iff in E2 as ->.
    rewrite ascii_compare_refl. by eapply IH.
  - apply Ascii.compare_eq_iff in E1 as ->. by rewrite E2.
  - apply Ascii.compare_eq_iff in E2 as <-. by rewrite E1.
  - by rewrite (ascii_compare_lt_trans _ _ _ E1 E2).
Qed.

Lemma ltb_lt (a b : string) : String.ltb a b = true ↔ String.compare a b = Lt.
Proof. unfold String.ltb. destruct (String.compare a b); split; congruence. Qed.

Lemma ltb_trans (a b c : string) :
  String.ltb a b = true → String.ltb b c = true → String.ltb a c = true.
Proof. rewrite !ltb_lt. apply string_compare_lt_trans. Qed.

(** Two different strings are ordered one way or the other. *)
Lemma ltb_false_ne (a b : string) :
  String.ltb a b = false → a ≠ b → String.ltb b a = true.
Proof.
  intros Hab Hne. apply ltb_lt. rewrite String.compare_antisym.
  destruct (String.compare a b) eqn:E; simpl.
  - by apply String.compare_eq_iff in E.
  - apply ltb_lt in E. congruence.
  - done.
Qed.

Lemma elem_of_insert_string (s x : string) (l : list string) :
  x ∈ insert_string s l ↔ x = s ∨ x ∈ l.
Proof.
  induction l as [|y l IH]; simpl.
  - rewrite list_elem_of_singleton, elem_of_nil. tauto.
  - destruct (String.ltb s y); rewrite !elem_of_cons; [tauto|].
    rewrite IH. tauto.
Qed.

Lemma insert_string_sorted (s : string) (l : list string) :
  s ∉ l →
  StronglySorted (fun a b => String.ltb a b = true) l →
  StronglySorted (fun a b => String.ltb a b = true) (insert_string s l).
Proof.
  induction l as [|y l IH]; simpl; intros Hs Hl; [repeat constructor|].
  apply StronglySorted_cons in Hl as [Hy Hl].
  apply not_elem_of_cons in Hs as [Hne Hs].
  destruct (String.ltb s y) eqn:E.
  - constructor; [by constructor|]. constructor; [done|].
    eapply Forall_impl; [exact Hy|]. intros z Hz. simpl in *. by eapply ltb_trans.
  - constructor; [by apply IH|].
    apply Forall_forall. intros z [->|Hz]%elem_of_insert_string.
    + by apply ltb_false_ne.
    + by eapply Forall_forall in Hy.
Qed.

Lemma sorted_strings_from (l acc : list string) :
  NoDup (acc ++ l) →
  StronglySorted (fun a b => String.ltb a b = true) acc →
  let r := fold_left (fun sorted s => insert_string s sorted) l acc in
  StronglySorted (fun a b => String.ltb a b = true) r
  ∧ ∀ x, x ∈ r ↔ x ∈ acc ∨ x ∈ l.
Proof.
  revert acc; induction l as [|s l IH]; intros acc Hnd Hs; simpl.
  - split; [done|]. intros x. rewrite elem_of_nil. tauto.
  - assert (Hnd' : NoDup (s :: acc ++ l)) by by rewrite Permutation_middle.
    apply NoDup_cons in Hnd' as [Hsn Hnd'].
    rewrite elem_of_app in Hsn.
    destruct (IH (insert_string s acc)) as [H1 H2].
    + rewrite (Permutation_app_comm (insert_string s acc)).
      apply NoDup_app. apply NoDup_app in Hnd' as (Ha & Hd & Hl).
      split; [done|]. split.
      * intros x Hx [->|Hxa]%elem_of_insert_string; [tauto|]. by apply (Hd x).
      * assert (Hp : Permutation (insert_string s acc) (s :: acc)).
        { clear. induction acc as [|y acc IH]; simpl; [done|].
          destruct (String.ltb s y); [done|]. rewrite IH. apply perm_swap. }
        rewrite Hp. constructor; [tauto|done].
    + apply insert_string_sorted; [tauto|done].
    + split; [done|]. intros x. rewrite H2, elem_of_insert_string, elem_of_cons. tauto.
Qed.

(** [sorted] on strings that differ pairwise: strictly ascending, with the
    same strings. *)
Lemma sorted_strings_spec (l : list string) :
  NoDup l →
  StronglySorted (fun a b => String.ltb a b = true) (sorted_strings l)
  ∧ ∀ x, x ∈ sorted_strings l ↔ x ∈ l.
Proof.
  intros Hnd. destruct (sorted_strings_from l [] Hnd (SSorted_nil _)) as [H1 H2].
  split; [done|]. intros x. rewrite (H2 x), elem_of_nil. tauto.
Qed.

Lemma all_strings_Some (cells : list (option string)) :
  Forall is_Some cells →
  ∃ l, all_strings cells = Some l ∧ cells = map Some l.
Proof.
  induction 1 as [|c cells [s ->] Hc (l & IH & ->)]; simpl.
  - by exists [].
  - rewrite IH. by exists (s :: l).
Qed.

End StringOrderFacts.

(** X10: on a loaded catalog [get_all_genres] returns the genres of the
    tracks, each once, in strictly ascending order of their characters. *)
Theorem X10_all_genres_sorted_without_repeat (csv : list RawRow)
    (self : MusicRecommender) :
  init csv = Some self →
  ∃ genres,
    get_all_genres self = Some (map Some genres)
    ∧ StronglySorted (fun a b => String.ltb a b = true) genres
    ∧ ∀ g, g ∈ genres ↔ ∃ t, t ∈ df self ∧ genre t = Some g.
Proof.
  intros Hinit. unfold get_all_genres.
  assert (Hsome : Forall is_Some (unique (map genre (df self)))).
  { apply Forall_forall. intros c Hc. apply (proj1 (elem_of_unique _ _)) in Hc.
    apply list_elem_of_fmap in Hc as (t & -> & Ht).
    destruct (init_Some _ _ Hinit) as (Hdf & _). rewrite Hdf in Ht.
    apply catalog_metadata in Ht as (r & _ & _ & _ & _ & _ & -> & _). eauto. }
  destruct (all_strings_Some _ Hsome) as (l & -> & Hl).
  assert (Hnd : NoDup l).
  { apply (NoDup_fmap (@Some string)). change (Some <$> l) with (map Some l).
    rewrite <- Hl. apply unique_from_NoDup. }
  destruct (sorted_strings_spec l Hnd) as [Hs Hin].
  exists (sorted_strings l). split; [done|]. split; [done|].
  intros g. rewrite Hin.
  assert (Hg : g ∈ l ↔ Some g ∈ map Some l).
  { split; [intros H; apply list_elem_of_fmap; eauto|].
    by intros (x & [= ->] & Hx)%list_elem_of_fmap. }
  rewrite Hg, <- Hl, elem_of_unique. split.
  - intros (t & Ht & Hin')%list_elem_of_fmap. eauto.
  - intros (t & Ht & Hgt). apply list_elem_of_fmap. eauto.
Qed.

Lemma X10_all_genres_sorted_without_repeat_witness :
  ∃ genres,
    get_all_genres engine_mixed = Some (map Some genres)
    ∧ StronglySorted (fun a b => String.ltb a b = true) genres
    ∧ ∀ g, g ∈ genres ↔ ∃ t, t ∈ df engine_mixed ∧ genre t = Some g.
Proof.
  apply (X10_all_genres_sorted_without_repeat csv_mixed engine_mixed).
  vm_compute. reflexivity.
Defined.

(** ** The scaled features *)

(** X11: the scaled matrix has one row of nine features per track, and no
    scaled feature of the catalog is negative. *)
Theorem X11_scaled_features_nonnegative (csv : list RawRow)
    (self : MusicRecommender) :
  init csv = Some self →
  length (scaled_features self) = length (df self)
  ∧ ∀ r, r ∈ scaled_features self → length r = 9%nat ∧ Forall (Qle 0) r.
Proof.
  intros Hinit. split; [by eapply init_length|].
  destruct (init_Some _ _ Hinit) as (_ & Hfit & Hsc).
  set (X := map (fun t => to_list (audio t)) (df self)) in *.
  assert (Hlen : ∀ r, r ∈ X → length r = 9%nat).
  { intros r (t & -> & _)%list_elem_of_fmap. reflexivity. }
  destruct X as [|row rest] eqn:EX; [done|].
  injection Hfit as Hfit.
  assert (Hrest : ∀ r, r ∈ rest → length r = length row).
  { intros r Hr. rewrite (Hlen row) by left. apply Hlen. by right. }
  intros r Hr. rewrite Hsc, <- Hfit in Hr.
  apply list_elem_of_fmap in Hr as (x & -> & Hx).
  pose proof (column_min_le rest row Hrest x Hx) as Hmin.
  pose proof (column_max_ge rest row Hrest x Hx) as Hmax.
  unfold transform_row; simpl. split.
  - rewrite scaled_length by done. by apply Hlen.
  - by apply scaled_nonneg.
Qed.

Lemma X11_scaled_features_nonnegative_witness :
  length (scaled_features engine_mixed) = length (df engine_mixed)
  ∧ ∀ r, r ∈ scaled_features engine_mixed →
      length r = 9%nat ∧ Forall (Qle 0) r.
Proof.
  apply (X11_scaled_features_nonnegative csv_mixed engine_mixed).
  vm_compute. reflexivity.
Defined.

(** ** What a result holds *)

Section ResultFacts.

Lemma build_tracks (df : list Track) (ti : list nat) (ts : list Q) :
  length ti = length ts →
  map track (build df ti ts) = map (iloc df) ti.
Proof.
  revert ts; induction ti as [|j ti IH]; intros [|s ts]; simpl; try done.
  intros [= H]. by rewrite IH.
Qed.

Lemma at_nonneg (a : list Q) (j : nat) : Forall (Qle 0) a → 0 <= at_ 0 a j.
Proof.
  intros Ha. destruct (decide (j < length a)%nat) as [Hj|Hj].
  - eapply Forall_forall in Ha; [exact Ha|]. by apply at_elem_of.
  - unfold at_. rewrite nth_overflow by lia. apply Qle_refl.
Qed.

Lemma score_nonneg (s : Q) : 0 <= s → 0 <= round1 (s * 100).
Proof.
  intros Hs. apply Qle_trans with (round1 (0 * 100)); [by vm_compute|].
  by apply score_mono.
Qed.

Variables (csv : list RawRow) (self : MusicRecommender).
Hypothesis Hinit : init csv = Some self.

Lemma seed_ranking_in_range (idx k j : nat) (ex : bool) :
  (idx < length (df self))%nat →
  j ∈ (seed_ranking self idx k ex).1 → (j < length (df self))%nat.
Proof.
  intros Hidx Hj. destruct ex.
  - by apply seed_ranking_exclude_indices in Hj as [? _].
  - unfold seed_ranking in Hj. cbn [fst] in Hj. apply top_in_range in Hj.
    unfold set_at in Hj.
    by rewrite length_insert, (seed_similarities_df_length csv) in Hj.
Qed.

Lemma seed_ranking_NoDup (idx k : nat) (ex : bool) :
  NoDup (seed_ranking self idx k ex).1.
Proof.
  unfold seed_ranking. destruct ex; cbn [fst]; [|apply top_NoDup].
  set (valid := where_ _). set (vs := take_at _ valid).
  unfold take_idx. apply NoDup_fmap_2_strong; [|apply top_NoDup].
  intros l1 l2 Hl1 Hl2 Heq.
  apply top_in_range in Hl1, Hl2. unfold vs, take_at in Hl1, Hl2.
  rewrite length_map in Hl1, Hl2.
  pose proof (where_from_sorted (set_at
     (map (fun t => cell_ne (artists t) (artists (iloc (df self) idx))) (df self))
     idx false) 0) as Hs.
  fold (where_ (set_at
     (map (fun t => cell_ne (artists t) (artists (iloc (df self) idx))) (df self))
     idx false)) in Hs. fold valid in Hs.
  destruct (Nat.lt_trichotomy l1 l2) as [Hlt|[->|Hlt]]; [|done|].
  - pose proof (StronglySorted_lt_at valid l1 l2 Hs Hlt Hl2). lia.
  - pose proof (StronglySorted_lt_at valid l2 l1 Hs Hlt Hl1). lia.
Qed.

Lemma vector_similarities_length (d : gmap string Q) :
  length (vector_similarities self d) = length (df self).
Proof.
  unfold vector_similarities.
  change (transform (scaler self) [feature_vector d])
    with [transform_row (scaler self) (feature_vector d)].
  rewrite cosine_similarity_row, length_map. by eapply init_length.
Qed.

Lemma catalog_rows_NoDup (ti : list nat) :
  NoDup ti → (∀ j, j ∈ ti → (j < length (df self))%nat) →
  NoDup (map track_id (map (iloc (df self)) ti))
  ∧ ∀ t, t ∈ map (iloc (df self)) ti → t ∈ df self.
Proof.
  intros Hnd Hr. split.
  - rewrite map_map. apply NoDup_fmap_2_strong; [|done].
    intros i j Hi Hj Heq. eapply iloc_inj; eauto using df_NoDup.
  - intros t (j & -> & Hj)%list_elem_of_fmap. apply at_elem_of. by apply Hr.
Qed.

Lemma mood_known (mood : string) :
  lower mood ∈ mood_names → is_Some (mood_presets !! lower mood).
Proof.
  unfold mood_names. intros H.
  repeat (apply elem_of_cons in H as [->|H]; [eexists; vm_compute; reflexivity|]).
  by apply elem_of_nil in H.
Qed.

End ResultFacts.

(** X12: a seed, vector or mood query returns tracks of the catalog, and no
    track twice. *)
Theorem X12_results_are_distinct_catalog_tracks (csv : list RawRow)
    (self : MusicRecommender) (k : nat) :
  init csv = Some self →
  let distinct_tracks (result : list Recommendation) :=
    NoDup (map track_id (map track result))
    ∧ ∀ rec, rec ∈ result → track rec ∈ df self in
  (∀ id exclude_same_artist,
     distinct_tracks (get_recommendations self id k exclude_same_artist))
  ∧ (∀ features_dict,
       distinct_tracks (get_recommendations_by_features self features_dict k))
  ∧ (∀ mood, distinct_tracks (get_mood_based_recommendations self mood k)).
Proof.
  intros Hinit distinct_tracks.
  assert (Hrows : ∀ result ti,
            map track result = map (iloc (df self)) ti →
            NoDup ti → (∀ j, j ∈ ti → (j < length (df self))%nat) →
            distinct_tracks result).
  { intros result ti Heq Hnd Hr.
    destruct (catalog_rows_NoDup csv self Hinit ti Hnd Hr) as [H1 H2].
    split; [by rewrite Heq|]. intros rec Hrec. apply H2. rewrite <- Heq.
    apply list_elem_of_fmap. eauto. }
  assert (Hempty : distinct_tracks []).
  { split; [constructor|]. intros rec Hrec. by apply elem_of_nil in Hrec. }
  assert (Hvector : ∀ d, distinct_tracks (get_recommendations_by_features self d k)).
  { intros d. apply (Hrows _ (vector_ranking self d k)).
    - unfold get_recommendations_by_features. by rewrite map_map.
    - apply top_NoDup.
    - intros j Hj. apply top_in_range in Hj.
      by rewrite (vector_similarities_length csv) in Hj. }
  split; [|split; [done|]].
  - intros id ex. unfold get_recommendations.
    destruct (first_index (df self) id) as [idx|] eqn:E; [|done].
    apply first_index_Some in E as [Hidx _].
    pose proof (seed_ranking_lengths self idx k ex) as Hl.
    pose proof (seed_ranking_NoDup self idx k ex) as Hnd.
    pose proof (seed_ranking_in_range csv self Hinit idx k) as Hr.
    specialize (fun j => Hr j ex Hidx).
    destruct (seed_ranking self idx k ex) as [ti ts]. simpl in *.
    apply (Hrows _ ti); [by apply build_tracks|done|done].
  - intros mood. unfold get_mood_based_recommendations.
    by destruct (mood_presets !! lower mood).
Qed.

Lemma X12_results_are_distinct_catalog_tracks_witness :
  let distinct_tracks (result : list Recommendation) :=
    NoDup (map track_id (map track result))
    ∧ ∀ rec, rec ∈ result → track rec ∈ df engine_mixed in
  (∀ id exclude_same_artist,
     distinct_tracks (get_recommendations engine_mixed id 3 exclude_same_artist))
  ∧ (∀ features_dict,
       distinct_tracks (get_recommendations_by_features engine_mixed features_dict 3))
  ∧ (∀ mood, distinct_tracks (get_mood_based_recommendations engine_mixed mood 3)).
Proof.
  apply (X12_results_are_distinct_catalog_tracks csv_mixed engine_mixed 3).
  vm_compute. reflexivity.
Defined.

(** X13: a query by features returns [k] tracks, or the whole catalog when
    it has fewer: no track is left out of the ranking; a query by one of the
    six moods, in any case of its letters, returns as many. *)
Theorem X13_vector_and_mood_queries_length (csv : list RawRow)
    (self : MusicRecommender) (k : nat) :
  init csv = Some self →
  (∀ features_dict,
     length (get_recommendations_by_features self features_dict k)
     = Nat.min k (length (df self)))
  ∧ (∀ mood, lower mood ∈ mood_names →
       length (get_mood_based_recommendations self mood k)
       = Nat.min k (length (df self))).
Proof.
  intros Hinit.
  assert (Hvector : ∀ d, length (get_recommendations_by_features self d k)
                         = Nat.min k (length (df self))).
  { intros d. unfold get_recommendations_by_features, vector_ranking.
    by rewrite length_map, top_length, (vector_similarities_length csv). }
  split; [done|]. intros mood Hmood.
  unfold get_mood_based_recommendations.
  destruct (mood_known mood Hmood) as [preset ->]. apply Hvector.
Qed.

Lemma X13_vector_and_mood_queries_length_witness :
  (∀ features_dict,
     length (get_recommendations_by_features engine_mixed features_dict 3)
     = Nat.min 3 (length (df engine_mixed)))
  ∧ (∀ mood, lower mood ∈ mood_names →
       length (get_mood_based_recommendations engine_mixed mood 3)
       = Nat.min 3 (length (df engine_mixed))).
Proof.
  apply (X13_vector_and_mood_queries_length csv_mixed engine_mixed 3).
  vm_compute. reflexivity.
Defined.

(** X14: the score of a recommendation from a seed is never negative when
    the same artist is excluded, nor when at most catalog size minus one
    tracks are asked for. *)
Theorem X14_seed_scores_not_negative (csv : list RawRow)
    (self : MusicRecommender) (id : string) (k : nat)
    (exclude_same_artist : bool) (rec : Recommendation) :
  init csv = Some self →
  exclude_same_artist = true ∨ (k <= length (df self) - 1)%nat →
  rec ∈ get_recommendations self id k exclude_same_artist →
  0 <= similarity_score rec.
Proof.
  intros Hinit Hcase Hrec. unfold get_recommendations in Hrec.
  destruct (first_index (df self) id) as [idx|] eqn:E;
    [|by apply elem_of_nil in Hrec].
  apply first_index_Some in E as [Hidx _].
  pose proof (seed_similarities_nonneg _ _ idx Hinit) as Hnn.
  destruct (seed_ranking self idx k exclude_same_artist) as [ti ts] eqn:Er.
  apply build_score in Hrec as (s & Hs & ->). apply score_nonneg.
  assert (Hts : ts = (seed_ranking self idx k exclude_same_artist).2)
    by by rewrite Er.
  assert (Hti : ti = (seed_ranking self idx k exclude_same_artist).1)
    by by rewrite Er.
  destruct exclude_same_artist.
  - unfold seed_ranking in Hts. cbn [snd] in Hts. rewrite Hts in Hs.
    unfold take_at at 1 in Hs. apply list_elem_of_fmap in Hs as (l & -> & _).
    apply at_nonneg. unfold take_at. apply Forall_fmap, Forall_forall.
    intros j _. simpl. by apply at_nonneg.
  - destruct Hcase as [|Hk]; [done|].
    unfold seed_ranking in Hts. cbn [snd] in Hts. rewrite Hts in Hs.
    unfold take_at in Hs. apply list_elem_of_fmap in Hs as (j & -> & Hj).
    assert (Hne : j ≠ idx).
    { eapply (seed_ranking_plain_indices csv self Hinit idx k j); eauto. }
    rewrite at_set_at_ne by done. by apply at_nonneg.
Qed.

Lemma X14_seed_scores_not_negative_witness :
  0 <= similarity_score rec_A_first.
Proof.
  apply (X14_seed_scores_not_negative csv3 engine3 "A" 2 false rec_A_first).
  - vm_compute. reflexivity.
  - right. vm_compute. lia.
  - vm_compute. left.
Defined.

(** ** The sliders of the mode by features *)

(** X15: the mapping the application builds from its eight sliders reaches
    the engine whole: the query vector holds each slider value at the place
    of its feature, and the loudness, for which there is no slider, is always
    the default -10. *)
Theorem X15_sliders_reach_the_query_vector
    (danceability energy valence tempo acousticness instrumentalness
     speechiness liveness : Q) :
  let features_dict :=
    slider_features_dict danceability energy valence tempo acousticness
                         instrumentalness speechiness liveness in
  feature_vector features_dict
  = [danceability; energy; -10; speechiness; acousticness; instrumentalness;
     liveness; valence; tempo]
  ∧ features_dict !! "loudness"%string = None
  ∧ size features_dict = 8%nat.
Proof. vm_compute. repeat split. Qed.

(** ** The seed selection box *)

Section TrackOptionsFacts.

Lemma fold_enter_other (tracks : list TrackInfo) (options : gmap string string)
    (label : string) :
  (∀ u, u ∈ tracks → option_label u ≠ label) →
  fold_left enter tracks options !! label = options !! label.
Proof.
  revert options; induction tracks as [|t tracks IH]; intros options H; simpl;
    [done|].
  rewrite IH by (intros u Hu; apply H; by right).
  unfold enter. rewrite lookup_insert_ne; [done|]. apply H. left.
Qed.

Lemma fold_enter_None (tracks : list TrackInfo) (options : gmap string string)
    (label : string) :
  fold_left enter tracks options !! label = None
  ↔ options !! label = None ∧ ∀ u, u ∈ tracks → option_label u ≠ label.
Proof.
  revert options; induction tracks as [|t tracks IH]; intros options; simpl.
  - split; [intros H; split; [done|]|tauto].
    intros u Hu. by apply elem_of_nil in Hu.
  - rewrite IH. unfold enter. rewrite lookup_insert_None. split.
    + intros [[H1 H2] H3]. split; [done|].
      intros u [->|Hu]%elem_of_cons; [done|by apply H3].
    + intros [H1 H2]. split; [split; [done|apply H2; left]|].
      intros u Hu. apply H2. by right.
Qed.

Lemma fold_enter_size (tracks : list TrackInfo) (options : gmap string string) :
  (size (fold_left enter tracks options) <= size options + length tracks)%nat.
Proof.
  revert options; induction tracks as [|t tracks IH]; intros options; simpl;
    [lia|].
  etransitivity; [apply IH|]. unfold enter.
  destruct (options !! option_label t) as [v|] eqn:E.
  - rewrite map_size_insert_Some by eauto. lia.
  - rewrite map_size_insert_None by done. lia.
Qed.

End TrackOptionsFacts.

(** X16: in the seed selection box a label, the name and artist of a track,
    stands for the last track entered with it: tracks entered earlier under
    the same label cannot be selected; a label is absent exactly when no
    track has it, and there are at most as many labels as tracks. *)
Theorem X16_label_selects_last_track (tracks : list TrackInfo) :
  (∀ pre t post,
     tracks = pre ++ t :: post →
     (∀ u, u ∈ post → option_label u ≠ option_label t) →
     track_options tracks !! option_label t = Some (info_track_id t))
  ∧ (∀ label, track_options tracks !! label = None
              ↔ ∀ u, u ∈ tracks → option_label u ≠ label)
  ∧ (size (track_options tracks) <= length tracks)%nat.
Proof.
  change (track_options tracks) with (fold_left enter tracks ∅).
  split; [|split].
  - intros pre t post -> Hpost.
    rewrite fold_left_app. simpl. rewrite fold_enter_other by done.
    unfold enter. apply lookup_insert_eq.
  - intros label. rewrite fold_enter_None, lookup_empty. tauto.
  - pose proof (fold_enter_size tracks ∅) as H.
    by rewrite map_size_empty in H.
Qed.

Example same_label_keeps_last_identifier :
  map info_track_id (get_all_tracks engine_mixed) = ["a"; "b"; "c"; "d"]%string
  ∧ map option_label (get_all_tracks engine_mixed)
    = ["One - Ann"; "Two - Bob"; "Two - Unknown Artist"; "Two - Bob"]%string
  ∧ track_options (get_all_tracks engine_mixed) !! "Two - Bob"%string
    = Some "d"%string.
Proof. vm_compute. repeat split. Qed.

(** ** Queries with a vertical bar *)

Section AlternationFacts.

Lemma has_closing_brace_app (a b : string) :
  has_closing_brace (a ++ b) = has_closing_brace a || has_closing_brace b.
Proof.
  induction a as [|c a IH]; simpl; [done|]. by rewrite IH, orb_assoc.
Qed.

Lemma compile_alternation (a b : string) :
  plain_text (a ++ b) = true →
  compile (a ++ "|" ++ b) = Some [literal a; literal b].
Proof.
  induction a as [|c a IH].
  - change (String.append EmptyString b) with b. intros Hb. simpl.
    change (String.append EmptyString b) with b.
    by rewrite (compile_plain_text b Hb).
  - change (String.append (String c a) b) with (String c (a ++ b)).
    intros (Hc & Ho & Hab)%plain_text_cons.
    change (compile (String c (a ++ "|" ++ b))
            = Some [literal (String c a); literal b]).
    simpl. rewrite (IH Hab). destruct (is_special_false c Hc) as (-> & ->).
    rewrite Hc.
    assert (Ho' : opens_count c (a ++ "|" ++ b) = false).
    { unfold opens_count in *. rewrite has_closing_brace_app in *.
      exact Ho. }
    by rewrite Ho'.
Qed.

Lemma str_contains_alternation (str_lower : string → string) (a b : string)
    (cell : option string) :
  str_contains [literal a; literal b] (str_lower_with str_lower cell) = true
  ↔ cell_has_substring_with str_lower a cell
    ∨ cell_has_substring_with str_lower b cell.
Proof.
  rewrite <- !str_contains_literal. destruct cell as [s|]; simpl.
  - rewrite !orb_false_r, orb_true_iff. tauto.
  - split; [done|]. by intros [|].
Qed.

End AlternationFacts.

(** X17: whatever [str.lower] does, a query whose lowercased form is two
    texts without special characters joined by a vertical bar is read as an
    alternative: it finds, in catalog order, the tracks of the catalog whose
    lowercased name or artist has the first text as a substring, or the
    second. *)
Theorem X17_vertical_bar_is_an_alternative (str_lower : string → string)
    (self : MusicRecommender) (query a b : string) :
  str_lower query = (a ++ "|" ++ b)%string →
  plain_text (a ++ b) = true →
  ∃ result,
    search_tracks_with str_lower self query = Some result
    ∧ sublist result (df self)
    ∧ ∀ t, t ∈ result
           ↔ t ∈ df self
             ∧ (matches_text_with str_lower a t
                ∨ matches_text_with str_lower b t).
Proof.
  intros Hq Hab. unfold search_tracks_with.
  rewrite Hq, (compile_alternation _ _ Hab).
  eexists. split; [reflexivity|]. split; [apply list_filter_sublist|].
  intros t. rewrite list_elem_of_In, filter_In, <- list_elem_of_In.
  unfold matches_text_with.
  rewrite orb_true_iff, !str_contains_alternation. tauto.
Qed.

Lemma X17_vertical_bar_is_an_alternative_witness :
  ∃ result,
    search_tracks_with lower engine_mixed "ONE|Cat" = Some result
    ∧ sublist result (df engine_mixed)
    ∧ ∀ t, t ∈ result
           ↔ t ∈ df engine_mixed
             ∧ (matches_text_with lower "one" t
                ∨ matches_text_with lower "cat" t).
Proof.
  apply (X17_vertical_bar_is_an_alternative lower engine_mixed "ONE|Cat"
           "one" "cat"); reflexivity.
Defined.

(** On ASCII text: the query finds the track named [One] and no other. *)
Example vertical_bar_finds_either_text :
  option_map (map track_id) (search_tracks engine_mixed "ONE|Cat")
  = Some ["a"%string].
Proof. vm_compute. reflexivity. Qed.

(** ** The statistics of the genres *)

Section GenreStatsFacts.





End GenreStatsFacts.



(** ** The seed query with the same artist excluded *)

(** X19: with the same artist excluded, the recommendations for a track of
    the catalog are [k] in number, or as many as there are tracks by other
    artists when these are fewer: catalog size, minus one for the seed,
    minus the other tracks of its artist. *)
Theorem X19_excluded_artist_result_length (csv : list RawRow)
    (self : MusicRecommender) (i : Track) (k : nat) :
  init csv = Some self → i ∈ df self →
  length (get_recommendations self (track_id i) k true)
  = Nat.min k (length (df self) - 1 - same_attribution_count (df self) i).
Proof.
  intros Hinit Hi. by apply (get_recommendations_length csv self i k).
Qed.

Lemma X19_excluded_artist_result_length_witness :
  length (get_recommendations engine3 (track_id track_A) 5 true)
  = Nat.min 5 (length (df engine3) - 1 - same_attribution_count (df engine3) track_A).
Proof.
  apply (X19_excluded_artist_result_length csv3 engine3 track_A 5).
  - vm_compute. reflexivity.
  - vm_compute. left.
Defined.

(** X20: with the same artist excluded, the seed is in the result for no
    number of recommendations asked, however large. *)
Theorem X20_excluded_artist_never_returns_seed (csv : list RawRow)
    (self : MusicRecommender) (i : Track) (k : nat) (rec : Recommendation) :
  init csv = Some self → i ∈ df self →
  rec ∈ get_recommendations self (track_id i) k true →
  track rec ≠ i ∧ track_id (track rec) ≠ track_id i.
Proof.
  intros Hinit Hi Hrec.
  pose proof (df_NoDup _ _ Hinit) as Hnd.
  destruct (first_index_of_track _ _ Hnd Hi) as (idx & Hfi & Hlt & Hil).
  unfold get_recommendations in Hrec. rewrite Hfi in Hrec.
  destruct (seed_ranking self idx k true) as [ti ts] eqn:E.
  apply elem_of_build in Hrec as (j & Hj & Hrec).
  destruct (seed_ranking_exclude_indices self idx k j Hlt) as (Hjl & Hne & _);
    [by rewrite E|].
  assert (Hid : track_id (track rec) ≠ track_id i).
  { rewrite Hrec, <- Hil. intros Heq. apply Hne. by eapply iloc_inj. }
  split; [|done]. intros Heq. apply Hid. by rewrite Heq.
Qed.

Lemma X20_excluded_artist_never_returns_seed_witness :
  track rec_A_other_artist ≠ track_A
  ∧ track_id (track rec_A_other_artist) ≠ track_id track_A.
Proof.
  apply (X20_excluded_artist_never_returns_seed csv3 engine3 track_A 100
           rec_A_other_artist).
  - vm_compute. reflexivity.
  - vm_compute. left.
  - vm_compute. left.
Defined.
